(** * SwimPacer: the pace-line model

    A shallow embedding of the logic of
    [portable_pace_line_interactive_model_react.jsx]: the time-to-position
    function [timeToMeters], the head LED index, the tail positions, the
    distance markers, the weight pucks, the LED total, the mapping to
    track percentages, the zone underglow, the tail opacity and the
    start/stop/reset clock with its animation-frame loop.

    Numbers.  JavaScript numbers are IEEE 754 binary64.  The file holds
    two embeddings of the arithmetic.

    - Exact arithmetic.  A finite number is an exact rational ([Q]);
      rounding, overflow and underflow are not modelled and the two zeros
      are identified.  What JavaScript adds to the rationals is kept: a
      division by zero yields an infinity or [NaN], and these propagate
      through [-], [Math.min], [Math.max] and the comparisons.  This
      embedding describes the program wherever its results do not depend
      on rounding: comparisons of parameters, integer counters, values
      that are computed exactly.

    - Binary64 ([Module Binary64]).  The position function over the
      processor's floating-point numbers, operation by operation.  This
      embedding is the program's arithmetic; statements about positions
      that rounding can change are made here.

    Equalities between rationals are stated with [==] ([Qeq]). *)

From Stdlib Require Import String.
From Stdlib Require Import ZArith QArith Qround Qminmax Lqa Lia List Bool.
From Stdlib Require Floats.
Import ListNotations.
Local Open Scope Q_scope.

(** ** JavaScript numbers *)

Module JsNumber.

Inductive num : Type :=
| Fin (q : Q)
| PInf
| NInf
| NaN.

(** [a < b] on finite numbers, as a boolean. *)
Definition Qltb (a b : Q) : bool := negb (Qle_bool b a).

Definition num_neg (x : num) : num :=
  match x with
  | Fin q => Fin (- q)
  | PInf => NInf
  | NInf => PInf
  | NaN => NaN
  end.

Definition num_add (x y : num) : num :=
  match x, y with
  | NaN, _ | _, NaN => NaN
  | Fin a, Fin b => Fin (a + b)
  | PInf, NInf | NInf, PInf => NaN
  | PInf, _ | _, PInf => PInf
  | NInf, _ | _, NInf => NInf
  end.

Definition num_sub (x y : num) : num := num_add x (num_neg y).

(** The infinity whose sign is the sign of [a] times the sign of [y];
    [NaN] when [a] is zero. *)
Definition scale_inf (a : Q) (y : num) : num :=
  if Qeq_bool a 0 then NaN
  else if Qle_bool 0 a then y else num_neg y.

Definition num_mul (x y : num) : num :=
  match x, y with
  | NaN, _ | _, NaN => NaN
  | Fin a, Fin b => Fin (a * b)
  | Fin a, i => scale_inf a i
  | i, Fin b => scale_inf b i
  | PInf, PInf | NInf, NInf => PInf
  | PInf, NInf | NInf, PInf => NInf
  end.

Definition num_div (x y : num) : num :=
  match x, y with
  | NaN, _ | _, NaN => NaN
  | Fin a, Fin b =>
      if Qeq_bool b 0 then scale_inf a PInf else Fin (a / b)
  | Fin _, _ => Fin 0
  | i, Fin b => if Qltb b 0 then num_neg i else i
  | _, _ => NaN
  end.

(** [x <= y] and [x < y]; a comparison with [NaN] is false. *)
Definition num_leb (x y : num) : bool :=
  match x, y with
  | NaN, _ | _, NaN => false
  | Fin a, Fin b => Qle_bool a b
  | NInf, _ | _, PInf => true
  | _, _ => false
  end.

Definition num_ltb (x y : num) : bool :=
  match x, y with
  | NaN, _ | _, NaN => false
  | Fin a, Fin b => Qltb a b
  | PInf, _ | _, NInf => false
  | _, _ => true
  end.

(** [Math.min] and [Math.max]: [NaN] if either argument is. *)
Definition Math_min (x y : num) : num :=
  match x, y with
  | NaN, _ | _, NaN => NaN
  | _, _ => if num_leb x y then x else y
  end.

Definition Math_max (x y : num) : num :=
  match x, y with
  | NaN, _ | _, NaN => NaN
  | _, _ => if num_leb x y then y else x
  end.

(** [Math.round]: the nearest integer, halves rounded up. *)
Definition Math_round (x : num) : num :=
  match x with
  | Fin q => Fin (inject_Z (Qfloor (q + (1 # 2))))
  | _ => x
  end.

(** [x] is the finite number [q]. *)
Definition is_num (x : num) (q : Q) : Prop :=
  match x with
  | Fin a => a == q
  | _ => False
  end.

(** [x === y]: equal numbers; [NaN] is equal to nothing. *)
Definition strict_eq (x y : num) : Prop :=
  match x, y with
  | Fin a, Fin b => a == b
  | PInf, PInf | NInf, NInf => True
  | _, _ => False
  end.

(** [x] is a finite number of the closed interval [[lo, hi]]. *)
Definition num_within (lo hi : Q) (x : num) : Prop :=
  match x with
  | Fin a => lo <= a <= hi
  | _ => False
  end.

End JsNumber.

Import JsNumber.

(** ** The component's state and derived values *)

Inductive Mode : Type := loop | pingpong.

Definition is_pingpong (m : Mode) : bool :=
  match m with pingpong => true | loop => false end.

(** The controls of [PaceLineModel]. *)
Record Params : Type := mkParams {
  poolLen : Q;      (* 25 or 50 *)
  secPer50 : Q;     (* pace in seconds per 50 m *)
  mode : Mode;
  turnDwell : Q;    (* seconds to pause at each wall *)
  ledsPerM : Z;     (* density, set through parseInt *)
  tailLen : Z       (* LEDs worth of tail, set through parseInt *)
}.

Definition secPerM (p : Params) : Q := secPer50 p / 50.

(** [const ms = [15, 25, 35, 50].filter((m) => m <= poolLen)] *)
Definition canonicalMarkers : list Q := [15; 25; 35; 50].

Definition markerMs (poolLen : Q) : list Q :=
  filter (fun m => Qle_bool m poolLen) canonicalMarkers.

(** [timeToMeters]: convert time to position in meters along the lane.
    [travelT] is the time to traverse the lane ignoring dwell, [cycleT]
    adds the dwell at both ends, [tc] is the time within the cycle.  The
    source's block for [mode === "loop"] is empty and has no counterpart
    here. *)
Definition timeToMeters (p : Params) (t : Q) : num :=
  let travelT := secPerM p * poolLen p in
  let cycleT := travelT + 2 * turnDwell p in
  if Qeq_bool cycleT 0 then Fin 0
  else
    let n := Qfloor (t / cycleT) in
    let tc := t - inject_Z n * cycleT in
    let x :=
      if Qltb tc (turnDwell p) then Fin 0                  (* dwell at start *)
      else if Qltb (travelT + turnDwell p) tc
           then Fin (poolLen p)                            (* dwell at end *)
      else num_div (Fin (tc - turnDwell p)) (Fin (secPerM p)) (* moving *) in
    let x :=
      if is_pingpong (mode p) && (Z.rem n 2 =? 1)%Z
      then num_sub (Fin (poolLen p)) x                 (* reverse on odd laps *)
      else x in
    Math_max (Fin 0) (Math_min (Fin (poolLen p)) x).

(** The locals of [timeToMeters], named so that statements can refer to
    them. *)
Definition travelT (p : Params) : Q := secPerM p * poolLen p.
Definition cycleT (p : Params) : Q := travelT p + 2 * turnDwell p.
Definition cycleIndex (p : Params) (t : Q) : Z := Qfloor (t / cycleT p).
Definition timeInCycle (p : Params) (t : Q) : Q :=
  t - inject_Z (cycleIndex p t) * cycleT p.

(** [mode === "pingpong" && n % 2 === 1]; [%] is the truncating
    remainder. *)
Definition reversed (p : Params) (n : Z) : bool :=
  is_pingpong (mode p) && (Z.rem n 2 =? 1)%Z.

(** [const headIndex = Math.round(xMeters * ledsPerM)] *)
Definition headIndex (p : Params) (xMeters : num) : num :=
  Math_round (num_mul xMeters (Fin (inject_Z (ledsPerM p)))).

(** The loop [for (let k = 0; k < tailLen; k++)] of [tailMeters], from
    counter [k] on the array [arr]; [fuel] bounds the number of
    iterations. *)
Fixpoint tailLoop (p : Params) (head : num) (fuel : nat) (k : Z)
  (arr : list num) : list num :=
  match fuel with
  | O => arr
  | S fuel' =>
      if (k <? tailLen p)%Z then
        let idx := num_sub head (Fin (inject_Z k)) in
        let m := num_div idx (Fin (inject_Z (ledsPerM p))) in
        tailLoop p head fuel' (k + 1)%Z
          (if num_leb (Fin 0) m && num_leb m (Fin (poolLen p))
           then arr ++ [m] else arr)
      else arr
  end.

(** The counter runs from [0] up to the integer [tailLen], so [tailLen]
    iterations are enough for the loop to leave through its test
    ([tailLoop_fuel] below). *)
Definition tailMeters (p : Params) (head : num) : list num :=
  tailLoop p head (Z.to_nat (tailLen p)) 0 [].

(** The tail drawn at elapsed time [t]. *)
Definition tailMetersAt (p : Params) (t : Q) : list num :=
  tailMeters p (headIndex p (timeToMeters p t)).

(** Valid pacing parameters, as the specification delimits them. *)
Definition valid (p : Params) : Prop :=
  0 < poolLen p /\ 0 < secPer50 p /\ 0 <= turnDwell p.

(** Valid parameters of the LED strip. *)
Definition valid_leds (p : Params) : Prop :=
  (0 < ledsPerM p)%Z /\ (0 <= tailLen p)%Z.

(** An order-preserving subsequence. *)
Inductive Subseq {A : Type} : list A -> list A -> Prop :=
| Subseq_nil : Subseq [] []
| Subseq_skip (a : A) (l l' : list A) : Subseq l l' -> Subseq l (a :: l')
| Subseq_take (a : A) (l l' : list A) : Subseq l l' -> Subseq (a :: l) (a :: l').

(** Parameter sets of the specification's example scenarios: a 50 m pool
    at 50 s per 50 m, without and with a dwell of one second. *)
Definition laneLoop : Params := mkParams 50 50 loop 0 60 3.
Definition lanePingPong : Params := mkParams 50 50 pingpong 0 60 3.
Definition dwellLoop : Params := mkParams 50 50 loop 1 60 3.
Definition dwellPingPong : Params := mkParams 50 50 pingpong 1 60 3.

(** Degenerate parameters: a zero pace, without and with dwell. *)
Definition zeroPace : Params := mkParams 50 0 pingpong 0 60 3.
Definition zeroPaceDwell : Params := mkParams 50 0 loop 1 60 3.

(** ** Decorations and clock of the component *)

(** [const ledsTotal = Math.max(1, Math.round(poolLen * ledsPerM))] *)
Definition ledsTotal (p : Params) : num :=
  Math_max (Fin 1)
    (Math_round (num_mul (Fin (poolLen p)) (Fin (inject_Z (ledsPerM p))))).

(** The loop [for (let m = step; m < poolLen; m += step) arr.push(m)] of
    [weightPositions], from counter [m] on the array [arr].  The counter
    takes integer values only and is kept as an integer; [fuel] bounds
    the number of iterations. *)
Fixpoint weightLoop (poolLen : Q) (step : Z) (fuel : nat) (m : Z)
  (arr : list Z) : list Z :=
  match fuel with
  | O => arr
  | S fuel' =>
      if Qltb (inject_Z m) poolLen
      then weightLoop poolLen step fuel' (m + step)%Z (arr ++ [m])
      else arr
  end.

(** [weightPositions]: optional weight puck positions, every 8 m,
    excluding 0 and the end.  No more than [ceil(poolLen / 8)] tests of
    the loop condition are needed ([weightLoop_fuel] below). *)
Definition weightPositions (showWeights : bool) (poolLen : Q) : list Z :=
  if negb showWeights then []
  else
    let step := 8%Z in
    weightLoop poolLen step (Z.to_nat (Qceiling (poolLen / 8))) step [].

(** [const toPct = (m) => (m / poolLen) * 100] *)
Definition toPct (p : Params) (m : num) : num :=
  num_mul (num_div m (Fin (poolLen p))) (Fin 100).

(** [opacity: 1 - k / Math.max(1, tailLen)] of the [k]-th element of the
    tail. *)
Definition tailOpacity (p : Params) (k : nat) : num :=
  num_sub (Fin 1)
    (num_div (Fin (inject_Z (Z.of_nat k)))
       (Math_max (Fin 1) (Fin (inject_Z (tailLen p))))).

(** ** The zone underglow *)

(** [markerColor]: marker color palette. *)
Definition markerColor (m : Q) : string :=
  if Qle_bool m 15 then "bg-blue-500"
  else if Qle_bool m 25 then "bg-green-500"
  else if Qle_bool m 35 then "bg-yellow-500"
  else "bg-red-500".

(** A colored band of the track: [left] and [width] in percent, and the
    class that colors it. *)
Record Zone : Type := mkZone {
  zoneLeft : num;
  zoneWidth : num;
  zoneColor : string
}.

(** [array.map((m, i) => ...)] from index [i] on. *)
Fixpoint mapi_from {A B : Type} (f : A -> nat -> B) (i : nat) (l : list A)
  : list B :=
  match l with
  | [] => []
  | a :: l' => f a i :: mapi_from f (S i) l'
  end.

(** [markerMs[i]]; an index past the end gives [undefined], which
    arithmetic turns into [NaN]. *)
Definition marker_at (ms : list Q) (i : nat) : num :=
  match nth_error ms i with
  | Some m => Fin m
  | None => NaN
  end.

(** Zone underglow by meter ranges: the callback of [markerMs.map]. *)
Definition zoneOf (p : Params) (ms : list Q) (m : Q) (i : nat) : Zone :=
  let prev := if Nat.eqb i 0 then Fin 0 else marker_at ms (i - 1) in
  let start := toPct p prev in
  let end_ := toPct p (Fin m) in
  mkZone start (num_sub end_ start) (markerColor m).

Definition zoneGlow (p : Params) : list Zone :=
  let ms := markerMs (poolLen p) in
  mapi_from (zoneOf p ms) 0 ms.

(** Tail end segment (last marker to pool end), drawn when
    [poolLen > 50]. *)
Definition tailEndSegment (p : Params) : option Zone :=
  if Qltb 50 (poolLen p) then
    Some (mkZone (toPct p (Fin 50))
            (num_sub (toPct p (Fin (poolLen p))) (toPct p (Fin 50)))
            "bg-red-500")
  else None.

(** The zones [zs] lie side by side from [from] percent to [to] percent:
    each starts where the one before ends and has a positive width. *)
Fixpoint tiles (from : Q) (zs : list Zone) (to : Q) : Prop :=
  match zs with
  | [] => from == to
  | z :: rest =>
      exists l w : Q,
        zoneLeft z = Fin l /\ zoneWidth z = Fin w /\
        l == from /\ 0 < w /\ tiles (l + w) rest to
  end.

(** ** The run clock *)

Module RunClock.

(** The time state of the component and the part of the browser it talks
    to.  [running] and [tVisual] are React state, the three refs are
    mutable cells; [pendingFrames] is the browser's list of animation
    frame callbacks that were requested and neither run nor cancelled,
    [nextFrame] the handle the next request will get (handles are
    non-zero).  Every handler takes the value [now] that
    [performance.now()] returns when it runs, in milliseconds.  A handler
    is taken to run on the committed state, that is, after React has
    re-rendered for the state updates of the handlers before it. *)
Record Clock : Type := mkClock {
  running : bool;
  t0Ref : option Q;
  elapsedRef : Q;              (* accumulated when paused/resumed *)
  rafRef : option positive;
  tVisual : Q;                 (* for UI display *)
  pendingFrames : list positive;
  nextFrame : positive
}.

(** The state on mount. *)
Definition initClock : Clock := mkClock false None 0 None 0 [] 1.

(** [requestAnimationFrame(cb)]: queue the callback, return its handle. *)
Definition requestAnimationFrame (s : Clock) : positive * Clock :=
  (nextFrame s,
   mkClock (running s) (t0Ref s) (elapsedRef s) (rafRef s) (tVisual s)
     (pendingFrames s ++ [nextFrame s]) (Pos.succ (nextFrame s))).

(** [cancelAnimationFrame(h)] *)
Definition cancelAnimationFrame (h : positive) (s : Clock) : Clock :=
  mkClock (running s) (t0Ref s) (elapsedRef s) (rafRef s) (tVisual s)
    (remove Pos.eq_dec h (pendingFrames s)) (nextFrame s).

(** [loop]: [rafRef.current = requestAnimationFrame(...)] *)
Definition loop (s : Clock) : Clock :=
  let (h, s1) := requestAnimationFrame s in
  mkClock (running s1) (t0Ref s1) (elapsedRef s1) (Some h) (tVisual s1)
    (pendingFrames s1) (nextFrame s1).

Definition start (now : Q) (s : Clock) : Clock :=
  if negb (running s) then
    loop (mkClock true (Some now) (elapsedRef s) (rafRef s) (tVisual s)
            (pendingFrames s) (nextFrame s))
  else s.

Definition stop (now : Q) (s : Clock) : Clock :=
  if running s then
    let s1 :=
      match rafRef s with
      | Some h => cancelAnimationFrame h s
      | None => s
      end in
    match t0Ref s1 with
    | Some t0 =>
        (* accumulate elapsed *)
        mkClock false None (elapsedRef s1 + (now - t0) / 1000) None
          (tVisual s1) (pendingFrames s1) (nextFrame s1)
    | None =>
        mkClock false None (elapsedRef s1) None
          (tVisual s1) (pendingFrames s1) (nextFrame s1)
    end
  else s.

Definition reset (now : Q) (s : Clock) : Clock :=
  let s1 := stop now s in
  mkClock (running s1) (t0Ref s1) 0 (rafRef s1) 0
    (pendingFrames s1) (nextFrame s1).

(** The callback that [loop] hands to the browser. *)
Definition frameCallback (now : Q) (s : Clock) : Clock :=
  match t0Ref s with
  | None => s (* safety *)
  | Some t0 =>
      let t := elapsedRef s + (now - t0) / 1000 in
      loop (mkClock (running s) (t0Ref s) (elapsedRef s) (rafRef s) t
              (pendingFrames s) (nextFrame s))
  end.

(** The browser runs the pending callback [h]: it leaves the list, then
    runs.  A handle that is not pending runs nothing. *)
Definition runFrame (h : positive) (now : Q) (s : Clock) : Clock :=
  if in_dec Pos.eq_dec h (pendingFrames s) then
    frameCallback now
      (mkClock (running s) (t0Ref s) (elapsedRef s) (rafRef s) (tVisual s)
         (remove Pos.eq_dec h (pendingFrames s)) (nextFrame s))
  else s.

(** The cleanup of the effect, on unmount. *)
Definition unmount (s : Clock) : Clock :=
  match rafRef s with
  | Some h => cancelAnimationFrame h s
  | None => s
  end.

(** What can happen to the clock: the three buttons and the browser
    running a frame. *)
Inductive Event : Type :=
| Start (now : Q)
| Stop (now : Q)
| Reset (now : Q)
| Frame (h : positive) (now : Q).

Definition eventTime (e : Event) : Q :=
  match e with
  | Start now | Stop now | Reset now | Frame _ now => now
  end.

Definition step (s : Clock) (e : Event) : Clock :=
  match e with
  | Start now => start now s
  | Stop now => stop now s
  | Reset now => reset now s
  | Frame h now => runFrame h now s
  end.

(** The clock after a sequence of events, oldest first. *)
Definition run (events : list Event) (s : Clock) : Clock :=
  fold_left step events s.

(** The timestamps of the events never go back, starting from [T]. *)
Fixpoint chronological (T : Q) (events : list Event) : Prop :=
  match events with
  | [] => True
  | e :: rest => T <= eventTime e /\ chronological (eventTime e) rest
  end.

Definition is_reset (e : Event) : bool :=
  match e with Reset _ => true | _ => false end.

(** The shape of a clock state that the handlers maintain: while running
    there is a time reference and exactly one pending frame, the one
    [rafRef] holds; while stopped there is neither. *)
Definition clock_shape (s : Clock) : Prop :=
  if running s then
    exists (a : Q) (h : positive),
      t0Ref s = Some a /\ rafRef s = Some h /\ pendingFrames s = [h]
  else
    t0Ref s = None /\ rafRef s = None /\ pendingFrames s = [].

(** The time account of a clock state at time [T]: nothing is negative,
    the time reference is not in the future, and the display is not
    ahead of the elapsed time. *)
Definition clock_account (T : Q) (s : Clock) : Prop :=
  0 <= elapsedRef s /\ 0 <= tVisual s /\
  match t0Ref s with
  | Some a => a <= T /\ tVisual s <= elapsedRef s + (T - a) / 1000
  | None => tVisual s <= elapsedRef s
  end.

End RunClock.

(** ** The position function in binary64

    The same function over IEEE 754 binary64 numbers, the number type of
    JavaScript, with the processor's operations ([PrimFloat]) for [+],
    [-], [*], [/] and the comparisons.  Here rounding, overflow,
    underflow, the two zeros, the infinities and [NaN] are those of the
    program. *)

Module Binary64.

Import Stdlib.Floats.Floats.
Local Open Scope float_scope.

(** [x] is [NaN] as a specification-level float. *)
Definition sf_is_nan (x : spec_float) : bool :=
  match x with S754_nan => true | _ => false end.

(** The place of a float on the number line, as a triple that is
    compared lexicographically: the two zeros share a place. *)
Definition sf_rank (x : spec_float) : Z * Z * Z :=
  match x with
  | S754_nan => (0, 0, 0)%Z
  | S754_infinity true => (-2, 0, 0)%Z
  | S754_finite true m e => (-1, - e, - Zpos m)%Z
  | S754_zero _ => (0, 0, 0)%Z
  | S754_finite false m e => (1, e, Zpos m)%Z
  | S754_infinity false => (2, 0, 0)%Z
  end.

Definition lex3 (a b : Z * Z * Z) : comparison :=
  let '(a1, a2, a3) := a in
  let '(b1, b2, b3) := b in
  match (a1 ?= b1)%Z with
  | Eq => match (a2 ?= b2)%Z with Eq => (a3 ?= b3)%Z | c => c end
  | c => c
  end.

Definition rank (x : float) : Z * Z * Z := sf_rank (Prim2SF x).

Definition is_neg_zero (x : float) : bool :=
  match Prim2SF x with S754_zero true => true | _ => false end.

(** [Math.min]: [NaN] if either argument is; [-0] counts as less than
    [+0]. *)
Definition Math_min (a b : float) : float :=
  if is_nan a || is_nan b then nan
  else if a <? b then a
  else if b <? a then b
  else if is_neg_zero a then a else b.

(** [Math.max]: [NaN] if either argument is; [+0] counts as greater
    than [-0]. *)
Definition Math_max (a b : float) : float :=
  if is_nan a || is_nan b then nan
  else if a <? b then b
  else if b <? a then a
  else if is_neg_zero a then b else a.

(** [Math.floor]: a float with a non-negative exponent is an integer
    already; otherwise the integer part of [m * 2^e], one less for a
    negative number with a fractional part.  The result has at most 53
    bits and converts back exactly. *)
Definition Math_floor (x : float) : float :=
  match Prim2SF x with
  | S754_finite s m e =>
      if (0 <=? e)%Z then x
      else
        let q := (Zpos m / 2 ^ (- e))%Z in
        let r := (Zpos m mod 2 ^ (- e))%Z in
        let z := if s then (if (r =? 0)%Z then - q else - q - 1)%Z else q in
        SF2Prim (binary_normalize prec emax z 0 s)
  | _ => x
  end.

(** [n % 2]: the remainder of the truncating division, with the sign of
    [n]; [NaN] for an infinite or [NaN] dividend. *)
Definition rem2 (n : float) : float :=
  match Prim2SF n with
  | S754_finite s m e =>
      if (1 <=? e)%Z then (if s then neg_zero else zero)
      else
        let r := (Zpos m mod 2 ^ (1 - e))%Z in
        SF2Prim (binary_normalize prec emax (if s then - r else r)%Z e s)
  | S754_zero _ => n
  | _ => nan
  end.

(** The controls that [timeToMeters] reads. *)
Record Params : Type := mkParams {
  poolLen : float;
  secPer50 : float;
  mode : Mode;
  turnDwell : float
}.

Definition secPerM (p : Params) : float := secPer50 p / 50.

(** [timeToMeters], statement by statement. *)
Definition timeToMeters (p : Params) (t : float) : float :=
  let travelT := secPerM p * poolLen p in
  let cycleT := travelT + 2 * turnDwell p in
  if cycleT =? 0 then 0
  else
    let n := Math_floor (t / cycleT) in
    let tc := t - n * cycleT in
    let x :=
      if tc <? turnDwell p then 0                          (* dwell at start *)
      else if travelT + turnDwell p <? tc
           then poolLen p                                  (* dwell at end *)
      else (tc - turnDwell p) / secPerM p                  (* moving *) in
    let x :=
      if is_pingpong (mode p) && (rem2 n =? 1)
      then poolLen p - x                               (* reverse on odd laps *)
      else x in
    Math_max 0 (Math_min (poolLen p) x).

(** The locals of [timeToMeters], as the program computes them. *)
Definition travelT (p : Params) : float := secPerM p * poolLen p.
Definition cycleT (p : Params) : float := travelT p + 2 * turnDwell p.
Definition cycleIndex (p : Params) (t : float) : float :=
  Math_floor (t / cycleT p).
Definition timeInCycle (p : Params) (t : float) : float :=
  t - cycleIndex p t * cycleT p.

(** The first [x]: the distance covered within the cycle. *)
Definition cycleDistance (p : Params) (t : float) : float :=
  if timeInCycle p t <? turnDwell p then 0
  else if travelT p + turnDwell p <? timeInCycle p t then poolLen p
  else (timeInCycle p t - turnDwell p) / secPerM p.

(** [mode === "pingpong" && n % 2 === 1] *)
Definition reversed (p : Params) (n : float) : bool :=
  is_pingpong (mode p) && (rem2 n =? 1).

(** The second [x]: mirrored on a reversed lap. *)
Definition laneDistance (p : Params) (t : float) : float :=
  if reversed p (cycleIndex p t)
  then poolLen p - cycleDistance p t
  else cycleDistance p t.

(** [Math.max(0, Math.min(poolLen, x))] *)
Definition clamp (p : Params) (x : float) : float :=
  Math_max 0 (Math_min (poolLen p) x).

(** Valid pacing parameters: finite numbers, pool length and pace
    positive, dwell not negative. *)
Definition valid (p : Params) : Prop :=
  is_finite (poolLen p) = true /\ is_finite (secPer50 p) = true /\
  is_finite (turnDwell p) = true /\
  (0 <? poolLen p) = true /\ (0 <? secPer50 p) = true /\
  (0 <=? turnDwell p) = true.

(** An elapsed time: a finite number that is not negative. *)
Definition elapsed (t : float) : Prop :=
  is_finite t = true /\ (0 <=? t) = true.

#[local] Set Warnings "-inexact-float".

(** Parameter sets used below. *)
Definition lane50 (m : Mode) (secPer50 dwell : float) : Params :=
  mkParams 50 secPer50 m dwell.
Definition lane25 (m : Mode) (secPer50 dwell : float) : Params :=
  mkParams 25 secPer50 m dwell.

End Binary64.

(** ** Rational arithmetic: comparisons and floor *)

Section RationalFacts.

Lemma Qltb_true_iff (a b : Q) : Qltb a b = true <-> a < b.
Proof.
  unfold Qltb. rewrite negb_true_iff.
  split; intro H.
  - apply Qnot_le_lt. intro Hle.
    apply Qle_bool_iff in Hle. congruence.
  - destruct (Qle_bool b a) eqn:E; [|reflexivity].
    apply Qle_bool_iff in E. lra.
Qed.

Lemma Qltb_false_iff (a b : Q) : Qltb a b = false <-> b <= a.
Proof.
  unfold Qltb. rewrite negb_false_iff. apply Qle_bool_iff.
Qed.

Lemma Qeq_bool_false_iff (a b : Q) : Qeq_bool a b = false <-> ~ a == b.
Proof.
  split.
  - apply Qeq_bool_neq.
  - intro H. destruct (Qeq_bool a b) eqn:E; [|reflexivity].
    apply Qeq_bool_iff in E. contradiction.
Qed.

(** The floor of [x] is the only integer [z] with [z <= x < z + 1]. *)
Lemma Qfloor_unique (x : Q) (z : Z) :
  inject_Z z <= x -> x < inject_Z (z + 1) -> Qfloor x = z.
Proof.
  intros Hlo Hhi.
  assert (Hz : (z <= Qfloor x)%Z).
  { rewrite <- (Qfloor_Z z). now apply Qfloor_resp_le. }
  assert (Hx : (Qfloor x < z + 1)%Z).
  { rewrite Zlt_Qlt. eapply Qle_lt_trans; [apply Qfloor_le | exact Hhi]. }
  lia.
Qed.

Lemma Qfloor_succ (x : Q) : Qfloor (x + 1) = (Qfloor x + 1)%Z.
Proof.
  pose proof (Qfloor_le x) as Hlo.
  pose proof (Qlt_floor x) as Hhi.
  rewrite inject_Z_plus in Hhi. change (inject_Z 1) with 1 in Hhi.
  apply Qfloor_unique; rewrite !inject_Z_plus; change (inject_Z 1) with 1; lra.
Qed.

Lemma Qfloor_nonneg (x : Q) : 0 <= x -> (0 <= Qfloor x)%Z.
Proof.
  intro H. change 0%Z with (Qfloor 0). now apply Qfloor_resp_le.
Qed.

End RationalFacts.

(** ** The cycle: length, index and time within the cycle *)

Section Cycle.

Variable p : Params.

Lemma secPerM_pos : 0 < secPer50 p -> 0 < secPerM p.
Proof.
  intro H. unfold secPerM. apply Qlt_shift_div_l; lra.
Qed.

Lemma travelT_pos : 0 < poolLen p -> 0 < secPer50 p -> 0 < travelT p.
Proof.
  intros HL Hs. unfold travelT.
  apply Qmult_lt_0_compat; [now apply secPerM_pos | exact HL].
Qed.

Lemma cycleT_pos : valid p -> 0 < cycleT p.
Proof.
  intros (HL & Hs & Hd).
  pose proof (travelT_pos HL Hs). unfold cycleT. lra.
Qed.

Lemma travelT_over_secPerM :
  0 < secPer50 p -> travelT p / secPerM p == poolLen p.
Proof.
  intro Hs. apply secPerM_pos in Hs.
  unfold travelT. field. lra.
Qed.

(** [t = (t / cycleT) * cycleT], bracketed by the floor of the quotient. *)
Lemma cycleIndex_bounds (t : Q) :
  0 < cycleT p ->
  inject_Z (cycleIndex p t) * cycleT p <= t /\
  t < inject_Z (cycleIndex p t + 1) * cycleT p.
Proof.
  intro Hc. unfold cycleIndex.
  assert (Ht : t == (t / cycleT p) * cycleT p) by (field; lra).
  pose proof (Qfloor_le (t / cycleT p)) as Hlo.
  pose proof (Qlt_floor (t / cycleT p)) as Hhi.
  split.
  - rewrite Ht at 2. apply Qmult_le_compat_r; lra.
  - rewrite Ht at 1. apply Qmult_lt_compat_r; lra.
Qed.

Lemma timeInCycle_range (t : Q) :
  0 < cycleT p -> 0 <= timeInCycle p t < cycleT p.
Proof.
  intro Hc. destruct (cycleIndex_bounds t Hc) as [Hlo Hhi].
  rewrite inject_Z_plus in Hhi. change (inject_Z 1) with 1 in Hhi.
  unfold timeInCycle. lra.
Qed.

Lemma cycleIndex_nonneg (t : Q) :
  0 < cycleT p -> 0 <= t -> (0 <= cycleIndex p t)%Z.
Proof.
  intros Hc Ht. unfold cycleIndex. apply Qfloor_nonneg.
  apply Qle_shift_div_l; lra.
Qed.

Lemma cycleIndex_shift (t : Q) :
  0 < cycleT p -> cycleIndex p (t + cycleT p) = (cycleIndex p t + 1)%Z.
Proof.
  intro Hc. unfold cycleIndex.
  rewrite <- Qfloor_succ. apply Qfloor_comp. field. lra.
Qed.

Lemma timeInCycle_shift (t : Q) :
  0 < cycleT p -> timeInCycle p (t + cycleT p) == timeInCycle p t.
Proof.
  intro Hc. unfold timeInCycle. rewrite (cycleIndex_shift t Hc).
  rewrite inject_Z_plus. change (inject_Z 1) with 1. ring.
Qed.

End Cycle.

(** ** Finite results *)

Section NumFacts.

Lemma is_num_compat (x : num) (a b : Q) : is_num x a -> a == b -> is_num x b.
Proof.
  destruct x; simpl; try contradiction.
  intros H1 H2. now rewrite H1.
Qed.

Lemma is_num_unique (x : num) (a b : Q) : is_num x a -> is_num x b -> a == b.
Proof.
  destruct x; simpl; try contradiction.
  intros H1 H2. now rewrite <- H1.
Qed.

Lemma is_num_strict_eq (x y : num) (a : Q) :
  is_num x a -> is_num y a -> strict_eq x y.
Proof.
  destruct x, y; simpl; try contradiction.
  intros H1 H2. now rewrite H1, H2.
Qed.

Lemma is_num_within (x : num) (a lo hi : Q) :
  is_num x a -> lo <= a <= hi -> num_within lo hi x.
Proof.
  destruct x; simpl; try contradiction.
  intros H1 H2. rewrite H1. exact H2.
Qed.

(** [Math.max(0, Math.min(L, z))] leaves a [z] of [[0, L]] as it is. *)
Lemma clamp_id (L z : Q) :
  0 <= z <= L -> is_num (Math_max (Fin 0) (Math_min (Fin L) (Fin z))) z.
Proof.
  intros [Hz HL]. simpl.
  destruct (Qle_bool L z) eqn:E1.
  - apply Qle_bool_iff in E1. simpl.
    destruct (Qle_bool 0 L) eqn:E2; simpl.
    + lra.
    + assert (E3 : Qle_bool 0 L = true) by (apply Qle_bool_iff; lra).
      congruence.
  - simpl. destruct (Qle_bool 0 z) eqn:E2; simpl.
    + reflexivity.
    + assert (E3 : Qle_bool 0 z = true) by (now apply Qle_bool_iff).
      congruence.
Qed.

End NumFacts.

(** ** The position function, case by case *)

Section Position.

Variable p : Params.

(** The body of [timeToMeters] past the zero-cycle guard, in terms of the
    named locals. *)
Lemma timeToMeters_steps (t : Q) :
  ~ cycleT p == 0 ->
  timeToMeters p t =
  let tc := timeInCycle p t in
  let x :=
    if Qltb tc (turnDwell p) then Fin 0
    else if Qltb (travelT p + turnDwell p) tc then Fin (poolLen p)
    else num_div (Fin (tc - turnDwell p)) (Fin (secPerM p)) in
  Math_max (Fin 0)
    (Math_min (Fin (poolLen p))
       (if reversed p (cycleIndex p t)
        then num_sub (Fin (poolLen p)) x else x)).
Proof.
  intro Hc. apply Qeq_bool_false_iff in Hc.
  unfold timeToMeters.
  change (secPerM p * poolLen p) with (travelT p).
  change (travelT p + 2 * turnDwell p) with (cycleT p).
  rewrite Hc. reflexivity.
Qed.

(** With valid parameters the position is a finite number: the distance
    [y] covered within the cycle, or its mirror image [poolLen - y] on a
    reversed lap. *)
Lemma timeToMeters_cases (t : Q) :
  valid p ->
  exists y : Q,
    0 <= y <= poolLen p /\
    is_num (timeToMeters p t)
      (if reversed p (cycleIndex p t) then poolLen p - y else y) /\
    (timeInCycle p t < turnDwell p -> y == 0) /\
    (travelT p + turnDwell p < timeInCycle p t -> y == poolLen p) /\
    (turnDwell p <= timeInCycle p t <= travelT p + turnDwell p ->
     y == (timeInCycle p t - turnDwell p) / secPerM p).
Proof.
  intro Hv. pose proof (cycleT_pos p Hv) as Hc.
  destruct Hv as (HL & Hs & Hd).
  pose proof (secPerM_pos p Hs) as Hm.
  pose proof (travelT_pos p HL Hs) as HT.
  rewrite timeToMeters_steps by lra. cbv zeta.
  set (tc := timeInCycle p t).
  assert (Hfin : forall y, 0 <= y <= poolLen p ->
    is_num
      (Math_max (Fin 0)
         (Math_min (Fin (poolLen p))
            (if reversed p (cycleIndex p t)
             then num_sub (Fin (poolLen p)) (Fin y) else Fin y)))
      (if reversed p (cycleIndex p t) then poolLen p - y else y)).
  { intros y Hy. destruct (reversed p (cycleIndex p t)).
    - simpl num_sub.
      eapply is_num_compat; [apply clamp_id; lra | ring].
    - apply clamp_id; lra. }
  destruct (Qltb tc (turnDwell p)) eqn:E1.
  - apply Qltb_true_iff in E1.
    exists 0.
    split; [lra|]. split; [apply Hfin; lra|].
    repeat split; intros; lra.
  - apply Qltb_false_iff in E1.
    destruct (Qltb (travelT p + turnDwell p) tc) eqn:E2.
    + apply Qltb_true_iff in E2.
      exists (poolLen p).
      split; [lra|]. split; [apply Hfin; lra|].
      repeat split; intros; lra.
    + apply Qltb_false_iff in E2.
      assert (Hz : Qeq_bool (secPerM p) 0 = false)
        by (apply Qeq_bool_false_iff; lra).
      simpl num_div. rewrite Hz.
      assert (Hy : 0 <= (tc - turnDwell p) / secPerM p <= poolLen p).
      { split.
        - apply Qle_shift_div_l; lra.
        - apply Qle_shift_div_r; [lra|].
          unfold travelT in E2. lra. }
      exists ((tc - turnDwell p) / secPerM p).
      split; [exact Hy|]. split; [apply Hfin; exact Hy|].
      repeat split; intros; try lra; reflexivity.
Qed.

End Position.

(** ** Comparing two instants *)

Section TwoInstants.

Variable p : Params.
Hypothesis Hvalid : valid p.

(** The distance covered within the cycle depends on the time within the
    cycle only. *)
Lemma cycle_distance_agree (t1 t2 y1 y2 : Q) :
  timeInCycle p t1 == timeInCycle p t2 ->
  (timeInCycle p t1 < turnDwell p -> y1 == 0) ->
  (travelT p + turnDwell p < timeInCycle p t1 -> y1 == poolLen p) ->
  (turnDwell p <= timeInCycle p t1 <= travelT p + turnDwell p ->
   y1 == (timeInCycle p t1 - turnDwell p) / secPerM p) ->
  (timeInCycle p t2 < turnDwell p -> y2 == 0) ->
  (travelT p + turnDwell p < timeInCycle p t2 -> y2 == poolLen p) ->
  (turnDwell p <= timeInCycle p t2 <= travelT p + turnDwell p ->
   y2 == (timeInCycle p t2 - turnDwell p) / secPerM p) ->
  y1 == y2.
Proof.
  intros Htc A1 B1 C1 A2 B2 C2.
  destruct (Qlt_le_dec (timeInCycle p t1) (turnDwell p)) as [Ha|Ha].
  - rewrite A1, A2; [reflexivity | lra | lra].
  - destruct (Qlt_le_dec (travelT p + turnDwell p) (timeInCycle p t1))
      as [Hb|Hb].
    + rewrite B1, B2; [reflexivity | lra | lra].
    + rewrite C1, C2; [| lra | lra]. now rewrite Htc.
Qed.

(** Same time within the cycle, same direction: same position. *)
Lemma position_determined (t1 t2 : Q) :
  timeInCycle p t1 == timeInCycle p t2 ->
  reversed p (cycleIndex p t1) = reversed p (cycleIndex p t2) ->
  strict_eq (timeToMeters p t1) (timeToMeters p t2).
Proof.
  intros Htc Hrev.
  destruct (timeToMeters_cases p t1 Hvalid) as (y1 & _ & N1 & A1 & B1 & C1).
  destruct (timeToMeters_cases p t2 Hvalid) as (y2 & _ & N2 & A2 & B2 & C2).
  assert (Hy : y1 == y2) by (eapply cycle_distance_agree; eassumption).
  rewrite <- Hrev in N2.
  eapply is_num_strict_eq; [exact N1|].
  eapply is_num_compat; [exact N2|].
  destruct (reversed p (cycleIndex p t1)); rewrite Hy; reflexivity.
Qed.

(** Same time within the cycle, opposite directions: mirrored position. *)
Lemma position_mirrored (t1 t2 : Q) :
  timeInCycle p t1 == timeInCycle p t2 ->
  reversed p (cycleIndex p t2) = negb (reversed p (cycleIndex p t1)) ->
  exists x : Q,
    is_num (timeToMeters p t1) x /\
    is_num (timeToMeters p t2) (poolLen p - x).
Proof.
  intros Htc Hrev.
  destruct (timeToMeters_cases p t1 Hvalid) as (y1 & _ & N1 & A1 & B1 & C1).
  destruct (timeToMeters_cases p t2 Hvalid) as (y2 & _ & N2 & A2 & B2 & C2).
  assert (Hy : y1 == y2) by (eapply cycle_distance_agree; eassumption).
  rewrite Hrev in N2.
  eexists. split; [exact N1|].
  eapply is_num_compat; [exact N2|].
  destruct (reversed p (cycleIndex p t1)); simpl; rewrite Hy; ring.
Qed.

End TwoInstants.

(** ** Parity of the cycle index *)

Section Parity.

Lemma rem2_succ (n : Z) :
  (0 <= n)%Z -> (Z.rem (n + 1) 2 =? 1)%Z = negb (Z.rem n 2 =? 1)%Z.
Proof.
  intro Hn.
  rewrite !Z.rem_mod_nonneg by lia.
  destruct (Z.eqb_spec (n mod 2) 1), (Z.eqb_spec ((n + 1) mod 2) 1);
    simpl; try reflexivity; exfalso;
    pose proof (Z.mod_pos_bound n 2); pose proof (Z.mod_pos_bound (n + 1) 2);
    Z.div_mod_to_equations; lia.
Qed.

Lemma rem2_even (n : Z) : Z.even n = true -> (Z.rem n 2 =? 1)%Z = false.
Proof.
  intro He. apply Z.eqb_neq. intro H.
  apply Z.even_spec in He.
  destruct He as [k ->]. rewrite Z.mul_comm, Z.rem_mul in H; lia.
Qed.

Lemma rem2_odd (n : Z) :
  (0 <= n)%Z -> Z.odd n = true -> (Z.rem n 2 =? 1)%Z = true.
Proof.
  intros Hn Ho. apply Z.eqb_eq.
  rewrite Z.rem_mod_nonneg by lia.
  apply Z.odd_spec in Ho. destruct Ho as [k Hk].
  Z.div_mod_to_equations. lia.
Qed.

Lemma reversed_loop (p : Params) (n : Z) : mode p = loop -> reversed p n = false.
Proof.
  intro Hm. unfold reversed. now rewrite Hm.
Qed.

Lemma reversed_pingpong (p : Params) (n : Z) :
  mode p = pingpong -> reversed p n = (Z.rem n 2 =? 1)%Z.
Proof.
  intro Hm. unfold reversed. now rewrite Hm.
Qed.

End Parity.

(** ** Properties of the position function *)

Section Compat.

Variable p : Params.

Lemma cycleIndex_compat (t t' : Q) :
  t == t' -> cycleIndex p t = cycleIndex p t'.
Proof.
  intro H. unfold cycleIndex. apply Qfloor_comp. now rewrite H.
Qed.

Lemma timeInCycle_compat (t t' : Q) :
  t == t' -> timeInCycle p t == timeInCycle p t'.
Proof.
  intro H. unfold timeInCycle.
  rewrite (cycleIndex_compat t t' H). now rewrite H.
Qed.

Lemma cycleIndex_shift2 (t : Q) :
  0 < cycleT p ->
  cycleIndex p (t + 2 * cycleT p) = (cycleIndex p t + 1 + 1)%Z.
Proof.
  intro Hc.
  rewrite (cycleIndex_compat (t + 2 * cycleT p) ((t + cycleT p) + cycleT p))
    by ring.
  now rewrite !cycleIndex_shift.
Qed.

Lemma timeInCycle_shift2 (t : Q) :
  0 < cycleT p -> timeInCycle p (t + 2 * cycleT p) == timeInCycle p t.
Proof.
  intro Hc.
  rewrite (timeInCycle_compat (t + 2 * cycleT p) ((t + cycleT p) + cycleT p))
    by ring.
  now rewrite !timeInCycle_shift.
Qed.

Lemma is_num_ltb (x y : num) (a b : Q) :
  is_num x a -> is_num y b -> a < b -> num_ltb x y = true.
Proof.
  destruct x, y; simpl; try contradiction.
  intros H1 H2 H. apply Qltb_true_iff. lra.
Qed.

End Compat.

(** Exact arithmetic (no rounding, overflow or underflow): for valid
    pacing parameters [timeToMeters] returns a finite number of the
    closed interval from [0] to [poolLen].  In binary64 the sum
    [cycleT] can overflow and [secPerM] can underflow, and the program
    then returns [NaN]. *)
Lemma timeToMeters_bounded (p : Params) (t : Q) :
  valid p -> 0 <= t -> num_within 0 (poolLen p) (timeToMeters p t).
Proof.
  intros Hv _.
  destruct (timeToMeters_cases p t Hv) as (y & Hy & Hn & _).
  eapply is_num_within; [exact Hn|].
  destruct (reversed p (cycleIndex p t)); lra.
Qed.

(** Exact arithmetic: for valid parameters in loop mode the position at
    [t] and at [t + cycleT] are the same number, where
    [cycleT = secPerM * poolLen + 2 * turnDwell].  In binary64 the
    sum [t + cycleT] and the time within the cycle are rounded, and the
    two positions can differ. *)
Lemma loop_periodic (p : Params) (t : Q) :
  valid p -> mode p = loop -> 0 <= t ->
  cycleT p == secPer50 p / 50 * poolLen p + 2 * turnDwell p /\
  strict_eq (timeToMeters p t) (timeToMeters p (t + cycleT p)).
Proof.
  intros Hv Hm _. split; [reflexivity|].
  pose proof (cycleT_pos p Hv) as Hc.
  apply position_determined; [exact Hv | |].
  - symmetry. now apply timeInCycle_shift.
  - now rewrite !reversed_loop.
Qed.

(** Exact arithmetic: for valid parameters in ping-pong mode and every
    [t >= 0] the direction of travel flips between [t] and [t + cycleT],
    the position at [t + cycleT] is [poolLen] minus the position at [t],
    and the position at [t + 2 * cycleT] is the position at [t].  In
    binary64 both equalities can fail by rounding. *)
Lemma pingpong_reversal (p : Params) (t : Q) :
  valid p -> mode p = pingpong -> 0 <= t ->
  reversed p (cycleIndex p (t + cycleT p)) =
    negb (reversed p (cycleIndex p t)) /\
  (exists x : Q,
     is_num (timeToMeters p t) x /\
     is_num (timeToMeters p (t + cycleT p)) (poolLen p - x)) /\
  strict_eq (timeToMeters p (t + 2 * cycleT p)) (timeToMeters p t).
Proof.
  intros Hv Hm Ht.
  pose proof (cycleT_pos p Hv) as Hc.
  pose proof (cycleIndex_nonneg p t Hc Ht) as Hn.
  assert (Hflip : reversed p (cycleIndex p (t + cycleT p)) =
                  negb (reversed p (cycleIndex p t))).
  { rewrite !reversed_pingpong by exact Hm.
    rewrite cycleIndex_shift by exact Hc. now apply rem2_succ. }
  split; [exact Hflip|]. split.
  - apply position_mirrored; [exact Hv | | exact Hflip].
    symmetry. now apply timeInCycle_shift.
  - apply position_determined; [exact Hv | |].
    + now apply timeInCycle_shift2.
    + rewrite !reversed_pingpong by exact Hm.
      rewrite cycleIndex_shift2 by exact Hc.
      rewrite !rem2_succ by lia. apply negb_involutive.
Qed.

(** C4 as stated fails on a reversed lap: in ping-pong mode with a dwell
    of one second, at [t = 52.5] the lap index is [1] and the time within
    the cycle is [0.5 < 1], yet the position is [50], not [0]; at
    [t = 103.5] the time within the cycle is [51.5], past
    [travelT + turnDwell = 51], yet the position is [0], not [50]. *)
Lemma dwell_holds_either_mode_counterexample :
  valid dwellPingPong /\ 0 < turnDwell dwellPingPong /\
  (0 <= 105 # 2 /\
   timeInCycle dwellPingPong (105 # 2) < turnDwell dwellPingPong /\
   ~ is_num (timeToMeters dwellPingPong (105 # 2)) 0) /\
  (0 <= 207 # 2 /\
   travelT dwellPingPong + turnDwell dwellPingPong
     < timeInCycle dwellPingPong (207 # 2) /\
   timeInCycle dwellPingPong (207 # 2) < cycleT dwellPingPong /\
   ~ is_num (timeToMeters dwellPingPong (207 # 2)) (poolLen dwellPingPong)).
Proof.
  split; [unfold valid; simpl; lra|].
  split; [reflexivity|].
  split; (split; [discriminate|]); repeat split; try reflexivity;
    vm_compute; discriminate.
Qed.

(** Exact arithmetic: for valid parameters, on a lap that is not
    reversed the position is [0] while the time within the cycle is
    below [turnDwell], and [poolLen] while it lies strictly between
    [travelT + turnDwell] and [cycleT].  The binary64 program computes
    its own lap index and time within the cycle, which near a lap
    boundary differ from the exact ones. *)
Lemma dwell_holds_forward_lap (p : Params) (t : Q) :
  valid p -> 0 < turnDwell p -> 0 <= t ->
  mode p = loop \/ Z.even (cycleIndex p t) = true ->
  (timeInCycle p t < turnDwell p -> is_num (timeToMeters p t) 0) /\
  (travelT p + turnDwell p < timeInCycle p t < cycleT p ->
   is_num (timeToMeters p t) (poolLen p)).
Proof.
  intros Hv _ _ Hfwd.
  assert (Hrev : reversed p (cycleIndex p t) = false).
  { destruct Hfwd as [Hm|He].
    - now apply reversed_loop.
    - unfold reversed. rewrite (rem2_even _ He). apply andb_false_r. }
  destruct (timeToMeters_cases p t Hv) as (y & Hy & Hn & A & B & _).
  rewrite Hrev in Hn.
  split.
  - intro H. eapply is_num_compat; [exact Hn | now apply A].
  - intros [H _]. eapply is_num_compat; [exact Hn | now apply B].
Qed.

(** Exact arithmetic: for valid parameters, on a lap that is not
    reversed, two instants [t1 < t2] of the same cycle whose times within
    the cycle both lie in the travel segment have positions in the same
    strict order.  In binary64 neighbouring instants can share a
    position. *)
Lemma travel_strictly_increasing (p : Params) (t1 t2 : Q) :
  valid p ->
  mode p = loop \/ Z.even (cycleIndex p t1) = true ->
  0 <= t1 -> t1 < t2 ->
  cycleIndex p t1 = cycleIndex p t2 ->
  turnDwell p <= timeInCycle p t1 <= travelT p + turnDwell p ->
  turnDwell p <= timeInCycle p t2 <= travelT p + turnDwell p ->
  num_ltb (timeToMeters p t1) (timeToMeters p t2) = true.
Proof.
  intros Hv Hfwd _ Hlt Hsame Hseg1 Hseg2.
  assert (Hrev : reversed p (cycleIndex p t1) = false).
  { destruct Hfwd as [Hm|He].
    - now apply reversed_loop.
    - unfold reversed. rewrite (rem2_even _ He). apply andb_false_r. }
  destruct (timeToMeters_cases p t1 Hv) as (y1 & _ & N1 & _ & _ & C1).
  destruct (timeToMeters_cases p t2 Hv) as (y2 & _ & N2 & _ & _ & C2).
  rewrite <- Hsame, Hrev in N2. rewrite Hrev in N1.
  specialize (C1 Hseg1). specialize (C2 Hseg2).
  eapply is_num_ltb; [exact N1 | exact N2 |].
  destruct Hv as (_ & Hs & _). apply secPerM_pos in Hs.
  assert (Htc : timeInCycle p t1 < timeInCycle p t2).
  { unfold timeInCycle. rewrite <- Hsame. lra. }
  assert (Hgap : 0 < (timeInCycle p t2 - timeInCycle p t1) / secPerM p)
    by (apply Qlt_shift_div_l; lra).
  assert (Hsplit :
    (timeInCycle p t2 - timeInCycle p t1) / secPerM p ==
    (timeInCycle p t2 - turnDwell p) / secPerM p -
    (timeInCycle p t1 - turnDwell p) / secPerM p) by (field; lra).
  rewrite C1, C2. lra.
Qed.



(** C6 (example scenarios): with a 50 m pool at 50 s per 50 m and no
    dwell, loop mode gives 0 at [t = 0], 25 at [t = 25], 0 at [t = 50]
    and 49.999 at [t = 49.999]; ping-pong mode gives 50 at [t = 50], 25
    at [t = 75] and 0 at [t = 100]; with a dwell of one second (in either
    mode) the position is 0 at [t = 0.5] and 0.5 at [t = 1.5]. *)
Theorem example_scenarios :
  (is_num (timeToMeters laneLoop 0) 0 /\
   is_num (timeToMeters laneLoop 25) 25 /\
   is_num (timeToMeters laneLoop 50) 0 /\
   is_num (timeToMeters laneLoop (49999 # 1000)) (49999 # 1000)) /\
  (is_num (timeToMeters lanePingPong 50) 50 /\
   is_num (timeToMeters lanePingPong 75) 25 /\
   is_num (timeToMeters lanePingPong 100) 0) /\
  (is_num (timeToMeters dwellLoop (1 # 2)) 0 /\
   is_num (timeToMeters dwellLoop (3 # 2)) (1 # 2) /\
   is_num (timeToMeters dwellPingPong (1 # 2)) 0 /\
   is_num (timeToMeters dwellPingPong (3 # 2)) (1 # 2)).
Proof.
  repeat split; vm_compute; reflexivity.
Qed.

(** The specification's LED example: at 10 m with 60 LEDs per meter and
    a tail of 3 the head index is 600 and the tail holds the positions of
    the LEDs 600, 599 and 598. *)
Example tail_at_ten_meters :
  headIndex laneLoop (Fin 10) = Fin (inject_Z 600) /\
  tailMeters laneLoop (Fin (inject_Z 600)) =
    [Fin (600 # 60); Fin (599 # 60); Fin (598 # 60)].
Proof.
  split; reflexivity.
Qed.

(** The number returned for degenerate parameters need not be a
    position: with a zero pace and a dwell of one second, at the instant
    the dwell ends the travel branch divides zero by zero. *)
Remark zero_pace_yields_NaN : timeToMeters zeroPaceDwell 1 = NaN.
Proof.
  reflexivity.
Qed.

(** Whatever the parameters, as long as [poolLen] is not negative the
    final [Math.max(0, Math.min(poolLen, x))] leaves either [NaN] or a
    number of [[0, poolLen]]; an infinite [x] is clamped to a wall. *)
Lemma clamp_range (L : Q) (x : num) :
  0 <= L ->
  Math_max (Fin 0) (Math_min (Fin L) x) = NaN \/
  num_within 0 L (Math_max (Fin 0) (Math_min (Fin L) x)).
Proof.
  intro HL.
  assert (E0 : Qle_bool 0 L = true) by (now apply Qle_bool_iff).
  destruct x as [q| | |]; simpl.
  - right. destruct (Qle_bool L q) eqn:E1; simpl.
    + rewrite E0. simpl. lra.
    + destruct (Qle_bool 0 q) eqn:E2; simpl.
      * apply Qle_bool_iff in E2.
        assert (~ L <= q) by (rewrite <- Qle_bool_iff; congruence). lra.
      * lra.
  - right. rewrite E0. simpl. lra.
  - right. simpl. lra.
  - now left.
Qed.

Lemma timeToMeters_NaN_or_within (p : Params) (t : Q) :
  0 <= poolLen p ->
  timeToMeters p t = NaN \/ num_within 0 (poolLen p) (timeToMeters p t).
Proof.
  intro HL. unfold timeToMeters.
  destruct (Qeq_bool (secPerM p * poolLen p + 2 * turnDwell p) 0).
  - right. simpl. lra.
  - cbv zeta. now apply clamp_range.
Qed.

(** ** The tail *)

Section Tail.

Variable p : Params.
Variable head : num.

(** What the test [m >= 0 && m <= poolLen] lets through. *)
Lemma tail_test_within (m : num) :
  num_leb (Fin 0) m && num_leb m (Fin (poolLen p)) = true ->
  num_within 0 (poolLen p) m.
Proof.
  intro H. apply andb_prop in H. destruct H as [H0 HL].
  destruct m; simpl in *; try discriminate.
  split; now apply Qle_bool_iff.
Qed.

Lemma tailLoop_step (fuel : nat) (k : Z) (arr : list num) :
  (k < tailLen p)%Z ->
  tailLoop p head (S fuel) k arr =
  let m := num_div (num_sub head (Fin (inject_Z k)))
             (Fin (inject_Z (ledsPerM p))) in
  tailLoop p head fuel (k + 1)%Z
    (if num_leb (Fin 0) m && num_leb m (Fin (poolLen p))
     then arr ++ [m] else arr).
Proof.
  intro Hk. apply Z.ltb_lt in Hk.
  cbn [tailLoop]. now rewrite Hk.
Qed.

Lemma tailLoop_exit (fuel : nat) (k : Z) (arr : list num) :
  (tailLen p <= k)%Z -> tailLoop p head fuel k arr = arr.
Proof.
  intro Hk. apply Z.ltb_ge in Hk.
  destruct fuel; cbn [tailLoop]; [reflexivity | now rewrite Hk].
Qed.

(** Once the fuel covers the iterations that remain, the loop ends by
    its test and more fuel changes nothing. *)
Lemma tailLoop_fuel (fuel : nat) :
  forall (k : Z) (arr : list num),
    (Z.to_nat (tailLen p - k) <= fuel)%nat ->
    tailLoop p head fuel k arr =
    tailLoop p head (Z.to_nat (tailLen p - k)) k arr.
Proof.
  induction fuel as [|n IH]; intros k arr Hfuel.
  - now replace (Z.to_nat (tailLen p - k)) with 0%nat by lia.
  - destruct (Z.lt_ge_cases k (tailLen p)) as [Hk|Hk].
    + replace (Z.to_nat (tailLen p - k))
        with (S (Z.to_nat (tailLen p - (k + 1)))) by lia.
      rewrite !tailLoop_step by exact Hk. cbv zeta.
      apply IH. lia.
    + now rewrite !tailLoop_exit.
Qed.

(** The loop only appends, at most one element per iteration, and only
    elements that pass the test. *)
Lemma tailLoop_invariant (fuel : nat) :
  forall (k : Z) (arr : list num),
    Forall (num_within 0 (poolLen p)) arr ->
    Forall (num_within 0 (poolLen p)) (tailLoop p head fuel k arr) /\
    (length (tailLoop p head fuel k arr) <= length arr + fuel)%nat.
Proof.
  induction fuel as [|n IH]; intros k arr Harr.
  - simpl. split; [exact Harr | lia].
  - destruct (Z.lt_ge_cases k (tailLen p)) as [Hk|Hk].
    + rewrite tailLoop_step by exact Hk. cbv zeta.
      set (m := num_div (num_sub head (Fin (inject_Z k)))
                  (Fin (inject_Z (ledsPerM p)))).
      destruct (num_leb (Fin 0) m && num_leb m (Fin (poolLen p))) eqn:E.
      * destruct (IH (k + 1)%Z (arr ++ [m])) as [HF HL].
        { apply Forall_app. split; [exact Harr|].
          constructor; [now apply tail_test_within | constructor]. }
        split; [exact HF|].
        rewrite length_app in HL. simpl in HL. lia.
      * destruct (IH (k + 1)%Z arr Harr) as [HF HL].
        split; [exact HF | lia].
    + rewrite tailLoop_exit by exact Hk. split; [exact Harr | lia].
Qed.

(** [tailMeters] is the result of the loop run to its end. *)
Lemma tailMeters_complete (fuel : nat) :
  (Z.to_nat (tailLen p) <= fuel)%nat ->
  tailLoop p head fuel 0 [] = tailMeters p head.
Proof.
  intro Hfuel. unfold tailMeters.
  rewrite (tailLoop_fuel fuel 0 []) by (rewrite Z.sub_0_r; exact Hfuel).
  now rewrite Z.sub_0_r.
Qed.

End Tail.

(** C8 (tail containment): for valid parameters and every [t >= 0],
    every element of the tail sequence is a finite number of
    [[0, poolLen]], and the sequence has at most [tailLen] elements. *)
Theorem tail_containment (p : Params) (t : Q) :
  valid p -> valid_leds p -> 0 <= t ->
  Forall (num_within 0 (poolLen p)) (tailMetersAt p t) /\
  (Z.of_nat (length (tailMetersAt p t)) <= tailLen p)%Z.
Proof.
  intros _ [_ Htail] _. unfold tailMetersAt, tailMeters.
  destruct (tailLoop_invariant p (headIndex p (timeToMeters p t))
              (Z.to_nat (tailLen p)) 0 [] (Forall_nil _)) as [HF HL].
  split; [exact HF|]. simpl in HL. lia.
Qed.

Lemma tail_containment_witness :
  valid laneLoop /\ valid_leds laneLoop /\ 0 <= 25 /\
  Forall (num_within 0 (poolLen laneLoop)) (tailMetersAt laneLoop 25) /\
  (Z.of_nat (length (tailMetersAt laneLoop 25)) <= tailLen laneLoop)%Z.
Proof.
  assert (Hv : valid laneLoop) by (unfold valid; simpl; lra).
  assert (Hl : valid_leds laneLoop) by (unfold valid_leds; simpl; lia).
  assert (Ht : 0 <= 25) by lra.
  exact (conj Hv (conj Hl (conj Ht (tail_containment laneLoop 25 Hv Hl Ht)))).
Defined.

(** ** The distance markers *)

Lemma filter_Subseq {A : Type} (f : A -> bool) (l : list A) :
  Subseq (filter f l) l.
Proof.
  induction l as [|a l IH]; simpl.
  - constructor.
  - destruct (f a); now constructor.
Qed.

(** C9 (distance markers): for every [poolLen] (in particular every
    positive one) [markerMs] is a subsequence, in order, of the canonical
    markers 15, 25, 35, 50; a canonical marker is in it exactly when it
    is at most [poolLen]; and it is determined by the value of [poolLen]
    alone. *)
Theorem markerMs_canonical (L : Q) :
  canonicalMarkers = [15; 25; 35; 50] /\
  Subseq (markerMs L) canonicalMarkers /\
  (forall m : Q, In m (markerMs L) <-> In m canonicalMarkers /\ m <= L) /\
  (forall L' : Q, L == L' -> markerMs L = markerMs L').
Proof.
  split; [reflexivity|]. split; [apply filter_Subseq|]. split.
  - intro m. unfold markerMs. rewrite filter_In, Qle_bool_iff. reflexivity.
  - intros L' HL. unfold markerMs.
    apply filter_ext. intro m. now rewrite HL.
Qed.

(** The marker sequence, pool length by pool length. *)
Lemma markerMs_by_range (L : Q) :
  (L < 15 -> markerMs L = []) /\
  (15 <= L < 25 -> markerMs L = [15]) /\
  (25 <= L < 35 -> markerMs L = [15; 25]) /\
  (35 <= L < 50 -> markerMs L = [15; 25; 35]) /\
  (50 <= L -> markerMs L = [15; 25; 35; 50]).
Proof.
  unfold markerMs, canonicalMarkers. simpl.
  destruct (Qle_bool 15 L) eqn:E15, (Qle_bool 25 L) eqn:E25,
           (Qle_bool 35 L) eqn:E35, (Qle_bool 50 L) eqn:E50;
    try apply Qle_bool_iff in E15; try apply Qle_bool_iff in E25;
    try apply Qle_bool_iff in E35; try apply Qle_bool_iff in E50;
    try (assert (~ 15 <= L) by (rewrite <- Qle_bool_iff; congruence));
    try (assert (~ 25 <= L) by (rewrite <- Qle_bool_iff; congruence));
    try (assert (~ 35 <= L) by (rewrite <- Qle_bool_iff; congruence));
    try (assert (~ 50 <= L) by (rewrite <- Qle_bool_iff; congruence));
    repeat split; intros; try reflexivity; exfalso; lra.
Qed.

(** ** The weight pucks *)

Section Weights.

Variable L : Q.

Lemma weightLoop_step (fuel : nat) (m : Z) (arr : list Z) :
  inject_Z m < L ->
  weightLoop L 8 (S fuel) m arr = weightLoop L 8 fuel (m + 8)%Z (arr ++ [m]).
Proof.
  intro H. apply Qltb_true_iff in H. cbn [weightLoop]. now rewrite H.
Qed.

Lemma weightLoop_exit (fuel : nat) (m : Z) (arr : list Z) :
  L <= inject_Z m -> weightLoop L 8 fuel m arr = arr.
Proof.
  intro H. apply Qltb_false_iff in H.
  destruct fuel; cbn [weightLoop]; [reflexivity | now rewrite H].
Qed.

(** The loop appends a run [m, m + 8, m + 16, ...] of positions below
    [L]; if fuel is left, the run stops because the next position is not
    below [L]. *)
Lemma weightLoop_run (fuel : nat) :
  forall (m : Z) (arr : list Z),
  exists n : nat,
    (n <= fuel)%nat /\
    weightLoop L 8 fuel m arr =
      arr ++ map (fun j => (m + 8 * Z.of_nat j)%Z) (seq 0 n) /\
    (forall j : nat, (j < n)%nat -> inject_Z (m + 8 * Z.of_nat j) < L) /\
    ((n < fuel)%nat -> L <= inject_Z (m + 8 * Z.of_nat n)).
Proof.
  induction fuel as [|f IH]; intros m arr.
  - exists 0%nat. simpl. rewrite app_nil_r.
    split; [lia|]. split; [reflexivity|].
    split; intros; exfalso; lia.
  - destruct (Qlt_le_dec (inject_Z m) L) as [Hlt|Hge].
    + rewrite weightLoop_step by exact Hlt.
      destruct (IH (m + 8)%Z (arr ++ [m])) as (n & Hn & Heq & Hin & Hout).
      exists (S n). split; [lia|]. split; [|split].
      * rewrite Heq, <- app_assoc. f_equal.
        cbn [seq map app]. f_equal; [f_equal; lia|].
        rewrite <- seq_shift, map_map.
        apply map_ext. intro j. lia.
      * intros [|j] Hj.
        -- now replace (m + 8 * Z.of_nat 0)%Z with m by lia.
        -- replace (m + 8 * Z.of_nat (S j))%Z
             with (m + 8 + 8 * Z.of_nat j)%Z by lia.
           apply Hin. lia.
      * intro Hlt'.
        replace (m + 8 * Z.of_nat (S n))%Z
          with (m + 8 + 8 * Z.of_nat n)%Z by lia.
        apply Hout. lia.
    + rewrite weightLoop_exit by exact Hge.
      exists 0%nat. cbn [seq map]. rewrite app_nil_r.
      split; [lia|]. split; [reflexivity|]. split.
      * intros j Hj. exfalso. lia.
      * intros _. now replace (m + 8 * Z.of_nat 0)%Z with m by lia.
Qed.

End Weights.

Section WeightPositions.

Variable L : Q.

(** With at least [ceil(L / 8)] units of fuel the loop from [8] ends by
    its test: the positions pushed are [8, 16, ..., 8 * n] and the next
    one, [8 * (n + 1)], is not below [L]. *)
Lemma weightLoop_from_step (fuel : nat) :
  (Qceiling (L / 8) <= Z.of_nat fuel)%Z ->
  exists n : nat,
    weightLoop L 8 fuel 8 [] =
      map (fun j => (8 * (Z.of_nat j + 1))%Z) (seq 0 n) /\
    (forall j : nat, (j < n)%nat -> inject_Z (8 * (Z.of_nat j + 1)) < L) /\
    L <= inject_Z (8 * (Z.of_nat n + 1)).
Proof.
  intro Hfuel.
  destruct (weightLoop_run L fuel 8 []) as (n & Hn & Heq & Hin & Hout).
  exists n. split; [|split].
  - rewrite Heq. cbn [app]. apply map_ext. intro j. lia.
  - intros j Hj.
    replace (8 * (Z.of_nat j + 1))%Z with (8 + 8 * Z.of_nat j)%Z by lia.
    now apply Hin.
  - replace (8 * (Z.of_nat n + 1))%Z with (8 + 8 * Z.of_nat n)%Z by lia.
    destruct (Nat.eq_dec n fuel) as [->|Hne].
    + pose proof (Qle_ceiling (L / 8)) as Hceil.
      rewrite Zle_Qle in Hfuel.
      assert (HL : L == L / 8 * 8) by field.
      rewrite inject_Z_plus, inject_Z_mult.
      change (inject_Z 8) with 8. lra.
    + apply Hout. lia.
Qed.

(** The number of positions pushed is determined by [L]. *)
Lemma weight_count_unique (n1 n2 : nat) :
  (forall j : nat, (j < n1)%nat -> inject_Z (8 * (Z.of_nat j + 1)) < L) ->
  L <= inject_Z (8 * (Z.of_nat n2 + 1)) ->
  (n1 <= n2)%nat.
Proof.
  intros Hin Hout.
  destruct (Nat.le_gt_cases n1 n2) as [H|H]; [exact H|].
  specialize (Hin n2 H). lra.
Qed.

(** More fuel than [ceil(L / 8)] changes nothing: the loop of
    [weightPositions] runs to its end. *)
Lemma weightLoop_fuel (fuel : nat) :
  (Qceiling (L / 8) <= Z.of_nat fuel)%Z ->
  weightLoop L 8 fuel 8 [] = weightPositions true L.
Proof.
  intro Hfuel. unfold weightPositions. cbn [negb]. cbv zeta.
  destruct (weightLoop_from_step fuel Hfuel) as (n1 & E1 & I1 & O1).
  assert (Hown : (Qceiling (L / 8) <= Z.of_nat (Z.to_nat (Qceiling (L / 8))))%Z)
    by lia.
  destruct (weightLoop_from_step _ Hown) as (n2 & E2 & I2 & O2).
  rewrite E1, E2.
  assert (n1 = n2) as ->; [|reflexivity].
  apply Nat.le_antisymm; eapply weight_count_unique; eassumption.
Qed.

Lemma weightPositions_run :
  exists n : nat,
    weightPositions true L =
      map (fun j => (8 * (Z.of_nat j + 1))%Z) (seq 0 n) /\
    (forall j : nat, (j < n)%nat -> inject_Z (8 * (Z.of_nat j + 1)) < L) /\
    L <= inject_Z (8 * (Z.of_nat n + 1)).
Proof.
  assert (Hown : (Qceiling (L / 8) <= Z.of_nat (Z.to_nat (Qceiling (L / 8))))%Z)
    by lia.
  destruct (weightLoop_from_step _ Hown) as (n & E & I & O).
  exists n. split; [exact E|]. split; assumption.
Qed.

End WeightPositions.

(** X1 (weight pucks, membership): with the decoration enabled, the
    weight positions are exactly the positive multiples of 8 strictly
    below [poolLen]; with the decoration disabled there are none. *)
Theorem weightPositions_membership (L : Q) (m : Z) :
  (In m (weightPositions true L) <->
   (0 < m)%Z /\ (m mod 8 = 0)%Z /\ inject_Z m < L) /\
  weightPositions false L = [].
Proof.
  split; [|reflexivity].
  destruct (weightPositions_run L) as (n & E & Hin & Hout).
  rewrite E, in_map_iff. split.
  - intros (j & <- & Hj). apply in_seq in Hj.
    split; [lia|]. split.
    + rewrite Z.mul_comm. apply Z.mod_mul. lia.
    + apply Hin. lia.
  - intros (Hpos & Hmod & Hlt).
    apply Z.mod_divide in Hmod; [|lia]. destruct Hmod as [k Hk].
    assert (Hj : (Z.to_nat (k - 1) < n)%nat).
    { destruct (Nat.le_gt_cases n (Z.to_nat (k - 1))) as [H|H]; [|exact H].
      exfalso.
      assert (Hle : (8 * (Z.of_nat n + 1) <= m)%Z) by lia.
      rewrite Zle_Qle in Hle. lra. }
    exists (Z.to_nat (k - 1)). split; [lia|].
    apply in_seq. lia.
Qed.

(** X2 (weight pucks, spacing): the [i]-th weight position is
    [8 * (i + 1)], so the pucks come in increasing order 8 m apart, and
    there are [ceil(poolLen / 8) - 1] of them (none when [poolLen <= 8]). *)
Theorem weightPositions_spacing (L : Q) :
  (forall i : nat,
     (i < length (weightPositions true L))%nat ->
     nth i (weightPositions true L) 0%Z = (8 * (Z.of_nat i + 1))%Z) /\
  length (weightPositions true L) = Z.to_nat (Qceiling (L / 8) - 1).
Proof.
  destruct (weightPositions_run L) as (n & E & Hin & Hout).
  rewrite E. rewrite length_map, length_seq. split.
  - intros i Hi.
    set (f := fun j : nat => (8 * (Z.of_nat j + 1))%Z).
    rewrite (nth_indep (map f (seq 0 n)) 0%Z (f 0%nat))
      by (now rewrite length_map, length_seq).
    rewrite map_nth, seq_nth by exact Hi. reflexivity.
  - assert (HL : L == L / 8 * 8) by field.
    pose proof (Qle_ceiling (L / 8)) as Hc1.
    pose proof (Qceiling_lt (L / 8)) as Hc2.
    rewrite inject_Z_mult, inject_Z_plus in Hout.
    change (inject_Z 8) with 8 in Hout. change (inject_Z 1) with 1 in Hout.
    unfold Z.sub in Hc2. rewrite inject_Z_plus in Hc2.
    change (inject_Z (-1)) with (-1) in Hc2.
    assert (Hup : (Qceiling (L / 8) - 1 <= Z.of_nat n)%Z).
    { apply Z.lt_succ_r. rewrite Zlt_Qlt. unfold Z.succ.
      rewrite !inject_Z_plus. change (inject_Z 1) with 1.
      unfold Z.sub. rewrite inject_Z_plus.
      change (inject_Z (-1)) with (-1). lra. }
    destruct n as [|n']; [lia|].
    assert (Hlast := Hin n' (Nat.lt_succ_diag_r n')).
    rewrite inject_Z_mult, inject_Z_plus in Hlast.
    change (inject_Z 8) with 8 in Hlast. change (inject_Z 1) with 1 in Hlast.
    assert (Hlo : (Z.of_nat n' + 1 < Qceiling (L / 8))%Z).
    { rewrite Zlt_Qlt. rewrite inject_Z_plus. change (inject_Z 1) with 1. lra. }
    lia.
Qed.

(** ** The track in percent *)

Section Leds.

Variable p : Params.

Lemma toPct_fin (a : Q) :
  0 < poolLen p -> toPct p (Fin a) = Fin (a / poolLen p * 100).
Proof.
  intro HL. unfold toPct. simpl.
  assert (E : Qeq_bool (poolLen p) 0 = false)
    by (apply Qeq_bool_false_iff; lra).
  now rewrite E.
Qed.

End Leds.

(** X6 (markers and pucks on the track): for a positive pool length every
    distance marker is drawn in the half-open range from 0 % (excluded)
    to 100 % (included), and every weight puck strictly between 0 % and
    100 %. *)
Theorem decorations_on_track (p : Params) (showWeights : bool) :
  0 < poolLen p ->
  (forall m : Q, In m (markerMs (poolLen p)) ->
     exists c : Q, toPct p (Fin m) = Fin c /\ 0 < c <= 100) /\
  (forall m : Z, In m (weightPositions showWeights (poolLen p)) ->
     exists c : Q, toPct p (Fin (inject_Z m)) = Fin c /\ 0 < c < 100).
Proof.
  intro HL. split.
  - intros m Hm. unfold markerMs in Hm. apply filter_In in Hm.
    destruct Hm as [Hcan Hle]. apply Qle_bool_iff in Hle.
    assert (Hpos : 0 < m).
    { unfold canonicalMarkers in Hcan. simpl in Hcan.
      destruct Hcan as [<-|[<-|[<-|[<-|[]]]]]; reflexivity. }
    exists (m / poolLen p * 100). split; [now apply toPct_fin|].
    assert (H0 : 0 < m / poolLen p) by (apply Qlt_shift_div_l; lra).
    assert (H1 : m / poolLen p <= 1) by (apply Qle_shift_div_r; lra).
    lra.
  - intros m Hm. destruct showWeights; [|contradiction].
    destruct (weightPositions_run (poolLen p)) as (n & E & Hin & _).
    rewrite E in Hm. apply in_map_iff in Hm.
    destruct Hm as (j & <- & Hj). apply in_seq in Hj.
    assert (Hlt : inject_Z (8 * (Z.of_nat j + 1)) < poolLen p)
      by (apply Hin; lia).
    assert (Hpos : (0 < 8 * (Z.of_nat j + 1))%Z) by lia.
    set (m := (8 * (Z.of_nat j + 1))%Z) in *.
    assert (Hq : 0 < inject_Z m).
    { change 0 with (inject_Z 0). now rewrite <- Zlt_Qlt. }
    exists (inject_Z m / poolLen p * 100). split; [now apply toPct_fin|].
    assert (H0 : 0 < inject_Z m / poolLen p)
      by (apply Qlt_shift_div_l; lra).
    assert (H1 : inject_Z m / poolLen p < 1)
      by (apply Qlt_shift_div_r; lra).
    lra.
Qed.

Lemma decorations_on_track_witness :
  0 < poolLen laneLoop /\
  (forall m : Q, In m (markerMs (poolLen laneLoop)) ->
     exists c : Q, toPct laneLoop (Fin m) = Fin c /\ 0 < c <= 100) /\
  (forall m : Z, In m (weightPositions true (poolLen laneLoop)) ->
     exists c : Q, toPct laneLoop (Fin (inject_Z m)) = Fin c /\ 0 < c < 100).
Proof.
  assert (HL : 0 < poolLen laneLoop) by reflexivity.
  exact (conj HL (decorations_on_track laneLoop true HL)).
Defined.

(** X8 (tail opacity): whatever the parameters and the head index, every
    element of the tail that is drawn has an opacity in the range from 0
    (excluded) to 1 (included), and the opacity strictly decreases along
    the tail. *)
Theorem tail_opacity_fades (p : Params) (head : num) (k : nat) :
  (k < length (tailMeters p head))%nat ->
  (exists o : Q, tailOpacity p k = Fin o /\ 0 < o <= 1) /\
  (forall j : nat, (j < k)%nat ->
     num_ltb (tailOpacity p k) (tailOpacity p j) = true).
Proof.
  intro Hk.
  destruct (tailLoop_invariant p head (Z.to_nat (tailLen p)) 0 []
              (Forall_nil _)) as [_ Hlen].
  fold (tailMeters p head) in Hlen. simpl in Hlen.
  assert (Hkt : (Z.of_nat k < tailLen p)%Z) by lia.
  assert (Ht1 : 1 <= inject_Z (tailLen p)).
  { change 1 with (inject_Z 1). rewrite <- Zle_Qle. lia. }
  assert (Hform : forall j : nat,
            tailOpacity p j =
            Fin (1 - inject_Z (Z.of_nat j) / inject_Z (tailLen p))).
  { intro j. unfold tailOpacity. cbn [Math_max num_leb].
    assert (E1 : Qle_bool 1 (inject_Z (tailLen p)) = true)
      by (now apply Qle_bool_iff).
    assert (E0 : Qeq_bool (inject_Z (tailLen p)) 0 = false)
      by (apply Qeq_bool_false_iff; lra).
    rewrite E1. cbn [num_div]. rewrite E0. reflexivity. }
  assert (Hstep : forall i j : nat, (i < j)%nat ->
            inject_Z (Z.of_nat i) / inject_Z (tailLen p) <
            inject_Z (Z.of_nat j) / inject_Z (tailLen p)).
  { intros i j Hij.
    assert (Hq : inject_Z (Z.of_nat i) < inject_Z (Z.of_nat j))
      by (rewrite <- Zlt_Qlt; lia).
    assert (Hgap : 0 < (inject_Z (Z.of_nat j) - inject_Z (Z.of_nat i))
                       / inject_Z (tailLen p))
      by (apply Qlt_shift_div_l; lra).
    assert (Hsplit :
      (inject_Z (Z.of_nat j) - inject_Z (Z.of_nat i)) / inject_Z (tailLen p)
      == inject_Z (Z.of_nat j) / inject_Z (tailLen p)
         - inject_Z (Z.of_nat i) / inject_Z (tailLen p)) by (field; lra).
    lra. }
  split.
  - eexists. split; [apply Hform|].
    assert (H0 : 0 <= inject_Z (Z.of_nat k) / inject_Z (tailLen p)).
    { apply Qle_shift_div_l; [lra|].
      rewrite Qmult_0_l.
      change 0 with (inject_Z 0). rewrite <- Zle_Qle. lia. }
    assert (H1 : inject_Z (Z.of_nat k) / inject_Z (tailLen p) < 1).
    { apply Qlt_shift_div_r; [lra|]. rewrite Qmult_1_l.
      now rewrite <- Zlt_Qlt. }
    lra.
  - intros j Hj. rewrite !Hform. simpl. apply Qltb_true_iff.
    specialize (Hstep j k Hj). lra.
Qed.

Lemma tail_opacity_fades_witness :
  (2 < length (tailMeters laneLoop (Fin 600)))%nat /\
  (exists o : Q, tailOpacity laneLoop 2 = Fin o /\ 0 < o <= 1) /\
  (forall j : nat, (j < 2)%nat ->
     num_ltb (tailOpacity laneLoop 2) (tailOpacity laneLoop j) = true).
Proof.
  assert (Hk : (2 < length (tailMeters laneLoop (Fin 600)))%nat)
    by (vm_compute; lia).
  exact (conj Hk (tail_opacity_fades laneLoop (Fin 600) 2 Hk)).
Defined.

(** ** Degenerate parameters *)

(** X11 (clamping of degenerate input): for parameters of which only
    [poolLen >= 0] is known (the pace and the dwell may be zero or
    negative) and for every [t], the result is [NaN] or a number of
    [[0, poolLen]]: it is never infinite and never outside the lane. *)
Theorem timeToMeters_never_off_lane (p : Params) (t : Q) :
  0 <= poolLen p ->
  timeToMeters p t <> PInf /\ timeToMeters p t <> NInf /\
  forall x : Q, timeToMeters p t = Fin x -> 0 <= x <= poolLen p.
Proof.
  intro HL.
  destruct (timeToMeters_NaN_or_within p t HL) as [E|Hw].
  - rewrite E. repeat split; discriminate.
  - destruct (timeToMeters p t); simpl in Hw; try contradiction.
    split; [discriminate|]. split; [discriminate|].
    intros x Hx. injection Hx as <-. exact Hw.
Qed.

Lemma timeToMeters_never_off_lane_witness :
  0 <= poolLen zeroPaceDwell /\
  timeToMeters zeroPaceDwell 1 <> PInf /\
  timeToMeters zeroPaceDwell 1 <> NInf /\
  forall x : Q,
    timeToMeters zeroPaceDwell 1 = Fin x -> 0 <= x <= poolLen zeroPaceDwell.
Proof.
  assert (HL : 0 <= poolLen zeroPaceDwell) by (simpl; lra).
  exact (conj HL (timeToMeters_never_off_lane zeroPaceDwell 1 HL)).
Defined.

(** ** The run clock: start, stop, reset and the frame loop *)

Section ClockFacts.

Import RunClock.

Lemma remove_only (h : positive) : remove Pos.eq_dec h [h] = [].
Proof.
  simpl. destruct (Pos.eq_dec h h); [reflexivity | congruence].
Qed.

Ltac same_handle :=
  repeat match goal with
  | |- context [Pos.eq_dec ?x ?x] =>
      destruct (Pos.eq_dec x x); [|congruence]
  end.

Lemma step_shape (s : Clock) (e : Event) :
  clock_shape s -> clock_shape (step s e).
Proof.
  unfold clock_shape. destruct s as [r t0 el raf tv pend nf].
  destruct e as [now|now|now|h now]; simpl;
    unfold start, stop, reset, runFrame, frameCallback, loop; simpl.
  - destruct r; simpl; [auto|].
    intros (_ & _ & ->). exists now, nf. auto.
  - destruct r; simpl; [|auto].
    intros (a & h & -> & -> & ->). simpl. same_handle. simpl. auto.
  - destruct r; simpl; [|auto].
    intros (a & h & -> & -> & ->). simpl. same_handle. simpl. auto.
  - destruct r; simpl.
    + intros (a & h0 & -> & -> & ->).
      destruct (in_dec Pos.eq_dec h [h0]) as [Hin|Hout]; simpl.
      * destruct Hin as [<-|[]]. same_handle. simpl.
        exists a, nf. auto.
      * exists a, h0. auto.
    + intros (-> & -> & ->). simpl. auto.
Qed.

Lemma run_shape (events : list Event) :
  forall s : Clock, clock_shape s -> clock_shape (run events s).
Proof.
  induction events as [|e rest IH]; intros s Hs; simpl.
  - exact Hs.
  - apply IH. now apply step_shape.
Qed.

Lemma initClock_shape : clock_shape initClock.
Proof.
  unfold clock_shape. simpl. repeat split.
Qed.

(** One event keeps the time account, at the time of the event, and
    unless it is a reset it does not take the display back. *)
Lemma step_account (T : Q) (s : Clock) (e : Event) :
  clock_shape s -> clock_account T s -> T <= eventTime e ->
  clock_account (eventTime e) (step s e) /\
  (is_reset e = false -> tVisual s <= tVisual (step s e)).
Proof.
  unfold clock_shape, clock_account. destruct s as [r t0 el raf tv pend nf].
  simpl. intros Hshape (Hel & Htv & Hacc) HT.
  destruct r.
  - destruct Hshape as (a & h0 & -> & -> & ->). destruct Hacc as [Ha Hle].
    assert (Hmono : (T - a) / 1000 <= (eventTime e - a) / 1000)
      by (apply Qmult_le_compat_r; [lra | discriminate]).
    assert (Hpos : 0 <= (T - a) / 1000)
      by (apply Qle_shift_div_l; [reflexivity | lra]).
    destruct e as [now|now|now|h now]; simpl in *;
      unfold start, stop, reset, runFrame, frameCallback, loop; simpl.
    + repeat split; try lra.
    + repeat split; try lra.
    + repeat split; try lra; discriminate.
    + destruct (Pos.eq_dec h0 h) as [<-|Hne]; simpl;
        repeat split; try lra.
  - destruct Hshape as (-> & -> & ->).
    destruct e as [now|now|now|h now]; simpl in *;
      unfold start, stop, reset, runFrame, frameCallback, loop; simpl.
    + assert (Hz : (now - now) / 1000 == 0) by field.
      repeat split; try lra.
    + repeat split; try lra.
    + repeat split; try lra; discriminate.
    + repeat split; try lra.
Qed.

Lemma run_account (events : list Event) :
  forall (T : Q) (s : Clock),
    clock_shape s -> clock_account T s -> chronological T events ->
    (exists T' : Q, clock_account T' (run events s)) /\
    (forallb (fun e => negb (is_reset e)) events = true ->
     tVisual s <= tVisual (run events s)).
Proof.
  induction events as [|e rest IH]; intros T s Hs Ha Hch; simpl.
  - split; [now exists T | intros; lra].
  - destruct Hch as [HT Hrest].
    destruct (step_account T s e Hs Ha HT) as [Ha' Hmono].
    destruct (IH (eventTime e) (step s e) (step_shape s e Hs) Ha' Hrest)
      as [Hacc Hmono'].
    split; [exact Hacc|].
    intro Hno. apply andb_prop in Hno. destruct Hno as [He Hr].
    apply negb_true_iff in He.
    specialize (Hmono He). specialize (Hmono' Hr). lra.
Qed.

(** X13 (one animation loop): after any sequence of button presses and
    frames from the mounted state, at most one animation frame is
    pending; while running it is the one [rafRef] holds and the time
    reference is set; while stopped none is pending and the time
    reference is cleared; after the unmount cleanup none is pending. *)
Theorem single_frame_loop (events : list Event) :
  let s := run events initClock in
  (length (pendingFrames s) <= 1)%nat /\
  (running s = true ->
   exists h : positive,
     rafRef s = Some h /\ pendingFrames s = [h] /\ t0Ref s <> None) /\
  (running s = false -> pendingFrames s = [] /\ t0Ref s = None) /\
  pendingFrames (unmount s) = [].
Proof.
  intro s. pose proof (run_shape events initClock initClock_shape) as Hs.
  fold s in Hs. unfold clock_shape in Hs. unfold unmount.
  destruct (running s).
  - destruct Hs as (a & h & Ht & Hr & Hp). rewrite Hr, Hp.
    split; [simpl; lia|]. split; [|split].
    + intros _. exists h. rewrite Ht. repeat split. discriminate.
    + discriminate.
    + unfold cancelAnimationFrame. simpl. rewrite Hp. simpl.
      same_handle. reflexivity.
  - destruct Hs as (Ht & Hr & Hp). rewrite Hr, Hp.
    split; [simpl; lia|]. split; [discriminate|]. split; [|reflexivity].
    intros _. split; [reflexivity | exact Ht].
Qed.

(** X14 (the display never runs back): along any sequence of events whose
    timestamps never go back, the displayed time is never negative, and
    it does not decrease over a stretch of events without a reset. *)
Theorem display_never_goes_back (before after : list Event) :
  chronological 0 (before ++ after) ->
  forallb (fun e => negb (is_reset e)) after = true ->
  0 <= tVisual (run before initClock) /\
  tVisual (run before initClock) <= tVisual (run (before ++ after) initClock).
Proof.
  assert (Hgen : forall (es : list Event) (T : Q) (s : Clock),
    clock_shape s -> clock_account T s -> chronological T (es ++ after) ->
    forallb (fun e => negb (is_reset e)) after = true ->
    0 <= tVisual (run es s) /\
    tVisual (run es s) <= tVisual (run (es ++ after) s)).
  { induction es as [|e es IH]; intros T s Hs Ha Hch Hno; simpl.
    - split; [apply Ha|].
      now apply (proj2 (run_account after T s Hs Ha Hch)).
    - simpl in Hch. destruct Hch as [HT Hrest].
      destruct (step_account T s e Hs Ha HT) as [Ha' _].
      exact (IH (eventTime e) (step s e) (step_shape s e Hs) Ha' Hrest Hno). }
  intros Hch Hno.
  apply (Hgen before 0 initClock initClock_shape); try assumption.
  unfold clock_account. simpl. repeat split; lra.
Qed.

Lemma display_never_goes_back_witness :
  chronological 0 ([Start 1000; Frame 1 1016] ++ [Stop 2000; Start 5000]) /\
  forallb (fun e => negb (is_reset e)) [Stop 2000; Start 5000] = true /\
  0 <= tVisual (run [Start 1000; Frame 1 1016] initClock) /\
  tVisual (run [Start 1000; Frame 1 1016] initClock)
    <= tVisual (run ([Start 1000; Frame 1 1016] ++ [Stop 2000; Start 5000])
                  initClock).
Proof.
  assert (Hch : chronological 0
                  ([Start 1000; Frame 1 1016] ++ [Stop 2000; Start 5000]))
    by (simpl; repeat split; discriminate).
  assert (Hno : forallb (fun e => negb (is_reset e)) [Stop 2000; Start 5000]
                = true) by reflexivity.
  exact (conj Hch (conj Hno
    (display_never_goes_back [Start 1000; Frame 1 1016]
       [Stop 2000; Start 5000] Hch Hno))).
Defined.

(** X15 (pause and resume): stopping a running clock at [b] adds the time
    since its reference [a] to the accumulated time; after a later start
    at [c], the frame that start requested, run at [d], displays the
    accumulated time plus [(b - a) / 1000 + (d - c) / 1000] seconds: the
    pause from [b] to [c] is not counted. *)
Theorem pause_is_not_counted (s : Clock) (a b c d : Q) :
  running s = true -> t0Ref s = Some a ->
  elapsedRef (stop b s) == elapsedRef s + (b - a) / 1000 /\
  exists h : positive,
    rafRef (start c (stop b s)) = Some h /\
    tVisual (runFrame h d (start c (stop b s)))
    == elapsedRef s + (b - a) / 1000 + (d - c) / 1000.
Proof.
  destruct s as [r t0 el raf tv pend nf]. simpl. intros -> ->.
  assert (Hfire : forall l : list positive,
    (if in_dec Pos.eq_dec nf (l ++ [nf]) then true else false) = true).
  { intro l. destruct (in_dec Pos.eq_dec nf (l ++ [nf])) as [|Hout];
      [reflexivity|].
    exfalso. apply Hout. apply in_or_app. right. now left. }
  split.
  - unfold stop. simpl. destruct raf; simpl; reflexivity.
  - exists nf. unfold stop, start, runFrame, frameCallback, loop. simpl.
    destruct raf as [h0|]; simpl;
      match goal with
      | |- context [in_dec Pos.eq_dec nf (?l ++ [nf])] =>
          specialize (Hfire l);
          destruct (in_dec Pos.eq_dec nf (l ++ [nf])); [|discriminate]
      end; simpl; split; reflexivity.
Qed.

Lemma pause_is_not_counted_witness :
  running (start 1000 initClock) = true /\
  t0Ref (start 1000 initClock) = Some 1000 /\
  exists h : positive,
    rafRef (start 5000 (stop 2000 (start 1000 initClock))) = Some h /\
    tVisual (runFrame h 5500 (start 5000 (stop 2000 (start 1000 initClock))))
    == elapsedRef (start 1000 initClock)
       + (2000 - 1000) / 1000 + (5500 - 5000) / 1000.
Proof.
  exact (conj eq_refl (conj eq_refl
    (proj2 (pause_is_not_counted (start 1000 initClock) 1000 2000 5000 5500
              eq_refl eq_refl)))).
Defined.

(** X16 (reset): after any sequence of events from the mounted state, a
    reset leaves the clock stopped with no frame pending and the
    accumulated and the displayed time at 0, so that a stray frame
    changes nothing; the frame requested by a following start at [c],
    run at [d], displays [(d - c) / 1000] seconds. *)
Theorem reset_returns_to_start (events : list Event) (now : Q) :
  let s := reset now (run events initClock) in
  running s = false /\ elapsedRef s = 0 /\ tVisual s = 0 /\
  pendingFrames s = [] /\
  (forall (h : positive) (d : Q), runFrame h d s = s) /\
  (forall c d : Q,
     exists h : positive,
       rafRef (start c s) = Some h /\
       tVisual (runFrame h d (start c s)) == (d - c) / 1000).
Proof.
  pose proof (run_shape events initClock initClock_shape) as Hs.
  destruct (run events initClock) as [r t0 el raf tv pend nf].
  unfold clock_shape in Hs. simpl in Hs.
  assert (E : reset now (mkClock r t0 el raf tv pend nf)
              = mkClock false None 0 None 0 [] nf).
  { destruct r.
    - destruct Hs as (a & h & -> & -> & ->).
      unfold reset, stop, cancelAnimationFrame. simpl. same_handle.
      reflexivity.
    - destruct Hs as (-> & -> & ->). reflexivity. }
  intro s. subst s. rewrite E. simpl.
  repeat split.
  intros c d. exists nf.
  unfold start, runFrame, frameCallback, loop. simpl. same_handle. simpl.
  split; [reflexivity | ring].
Qed.

(** X17 (buttons pressed twice): pressing Start on a clock that was just
    started, Stop on one that was just stopped or Reset on one that was
    just reset changes nothing: the time reference, the accumulated time
    and the pending frame stay as the first press left them. *)
Theorem second_press_changes_nothing (s : Clock) (t t' : Q) :
  start t' (start t s) = start t s /\
  stop t' (stop t s) = stop t s /\
  reset t' (reset t s) = reset t s.
Proof.
  destruct s as [r t0 el raf tv pend nf].
  unfold reset, start, stop.
  destruct r; simpl; repeat split;
    destruct raf; simpl; destruct t0; reflexivity.
Qed.

End ClockFacts.

(** ** The zone underglow *)

Section Zones.

Variable p : Params.
Hypothesis HL : 0 < poolLen p.

Lemma pct_gap (a b : Q) :
  a < b -> 0 < b / poolLen p * 100 - a / poolLen p * 100.
Proof.
  intro Hab.
  assert (Hgap : 0 < (b - a) / poolLen p) by (apply Qlt_shift_div_l; lra).
  assert (Hsplit : (b - a) / poolLen p == b / poolLen p - a / poolLen p)
    by (field; lra).
  lra.
Qed.

(** The five shapes of the marker list, by pool length. *)
Lemma markerMs_shapes :
  markerMs (poolLen p) = [] \/
  markerMs (poolLen p) = [15] \/
  markerMs (poolLen p) = [15; 25] \/
  markerMs (poolLen p) = [15; 25; 35] \/
  markerMs (poolLen p) = [15; 25; 35; 50].
Proof.
  destruct (markerMs_by_range (poolLen p)) as (R0 & R1 & R2 & R3 & R4).
  destruct (Qlt_le_dec (poolLen p) 15); [now left; apply R0|].
  destruct (Qlt_le_dec (poolLen p) 25); [now right; left; apply R1|].
  destruct (Qlt_le_dec (poolLen p) 35); [now right; right; left; apply R2|].
  destruct (Qlt_le_dec (poolLen p) 50);
    [now right; right; right; left; apply R3|].
  now right; right; right; right; apply R4.
Qed.

Lemma zoneGlow_tiles :
  tiles 0 (zoneGlow p) (last (markerMs (poolLen p)) 0 / poolLen p * 100).
Proof.
  assert (Hz : 0 == 0 / poolLen p * 100) by (field; lra).
  unfold zoneGlow.
  destruct markerMs_shapes as [E|[E|[E|[E|E]]]]; rewrite E;
    cbv zeta; cbn [mapi_from zoneOf marker_at nth_error Nat.eqb Nat.sub last
                   zoneLeft zoneWidth tiles];
    rewrite ?toPct_fin by exact HL; cbn [num_sub num_neg num_add];
    repeat (eexists; eexists; split; [reflexivity|];
            split; [reflexivity|];
            split; [try ring; try lra|];
            split; [apply pct_gap; reflexivity|]);
    try exact Hz; try ring.
Qed.

Lemma tiles_compat (zs : list Zone) :
  forall from to to' : Q, to == to' -> tiles from zs to -> tiles from zs to'.
Proof.
  induction zs as [|z rest IH]; intros from to to' Hto; simpl.
  - intro H. now rewrite <- Hto.
  - intros (l & w & El & Ew & Hl & Hw & Hrest).
    exists l, w. repeat split; try assumption.
    now apply (IH _ to).
Qed.

Lemma zoneGlow_colors : NoDup (map zoneColor (zoneGlow p)).
Proof.
  unfold zoneGlow.
  destruct markerMs_shapes as [E|[E|[E|[E|E]]]]; rewrite E;
    cbv zeta; cbn [mapi_from zoneOf map zoneColor];
    repeat (constructor; [simpl; intuition discriminate|]); constructor.
Qed.

End Zones.

(** X18 (zone underglow): for a positive pool length the colored zones
    lie side by side without gap or overlap, each with a positive width,
    from 0 % up to the position of the last marker that fits in the pool;
    when the pool length is itself that marker they reach 100 %; and no
    two zones have the same color. *)
Theorem zone_underglow_tiles (p : Params) :
  0 < poolLen p ->
  tiles 0 (zoneGlow p) (last (markerMs (poolLen p)) 0 / poolLen p * 100) /\
  (last (markerMs (poolLen p)) 0 == poolLen p -> tiles 0 (zoneGlow p) 100) /\
  NoDup (map zoneColor (zoneGlow p)).
Proof.
  intro HL. split; [now apply zoneGlow_tiles|]. split.
  - intro Hlast. eapply tiles_compat; [|now apply zoneGlow_tiles].
    rewrite Hlast. field. lra.
  - now apply zoneGlow_colors.
Qed.

Lemma zone_underglow_tiles_witness :
  0 < poolLen laneLoop /\
  (last (markerMs (poolLen laneLoop)) 0 == poolLen laneLoop ->
   tiles 0 (zoneGlow laneLoop) 100).
Proof.
  assert (HL : 0 < poolLen laneLoop) by reflexivity.
  exact (conj HL (proj1 (proj2 (zone_underglow_tiles laneLoop HL)))).
Defined.

(** X19 (tail end segment): for a pool of at most 50 m no tail end
    segment is drawn; for a longer pool it is a red band that starts
    where the zones end, at the 50 m marker, has a positive width and
    ends at 100 %, so that zones and segment together cover the track. *)
Theorem tail_end_completes_track (p : Params) :
  0 < poolLen p ->
  (poolLen p <= 50 -> tailEndSegment p = None) /\
  (50 < poolLen p ->
   exists l w : Q,
     tailEndSegment p = Some (mkZone (Fin l) (Fin w) "bg-red-500") /\
     tiles 0 (zoneGlow p) l /\ 0 < w /\ l + w == 100).
Proof.
  intro HL. unfold tailEndSegment. split.
  - intro Hle. apply Qltb_false_iff in Hle. now rewrite Hle.
  - intro Hgt. pose proof Hgt as E. apply Qltb_true_iff in E. rewrite E.
    rewrite !toPct_fin by exact HL. cbn [num_sub num_neg num_add].
    eexists. eexists. split; [reflexivity|]. split; [|split].
    + pose proof (zoneGlow_tiles p HL) as Ht.
      destruct (markerMs_by_range (poolLen p)) as (_ & _ & _ & _ & R4).
      rewrite R4 in Ht by lra. exact Ht.
    + now apply pct_gap.
    + field. lra.
Qed.

Lemma tail_end_completes_track_witness :
  0 < poolLen (mkParams 60 35 loop 0 60 3) /\
  (50 < poolLen (mkParams 60 35 loop 0 60 3) ->
   exists l w : Q,
     tailEndSegment (mkParams 60 35 loop 0 60 3)
       = Some (mkZone (Fin l) (Fin w) "bg-red-500") /\
     tiles 0 (zoneGlow (mkParams 60 35 loop 0 60 3)) l /\
     0 < w /\ l + w == 100).
Proof.
  assert (HL : 0 < poolLen (mkParams 60 35 loop 0 60 3)) by reflexivity.
  exact (conj HL
    (proj2 (tail_end_completes_track (mkParams 60 35 loop 0 60 3) HL))).
Defined.

(** ** Binary64: comparisons *)

Section FloatOrder.

Import Stdlib.Floats.Floats.
Import Binary64.
Local Open Scope float_scope.

Lemma SFcompare_rank (x y : spec_float) :
  sf_is_nan x = false -> sf_is_nan y = false ->
  SFcompare x y = Some (lex3 (sf_rank x) (sf_rank y)).
Proof.
  destruct x as [s|s| |s m e], y as [s'|s'| |s' m' e']; simpl;
    try discriminate; intros _ _;
    try (destruct s; reflexivity); try (destruct s'; reflexivity);
    try (destruct s, s'; reflexivity).
  destruct s, s'; simpl; try reflexivity.
  rewrite Z.compare_opp, (Z.compare_antisym e e').
  destruct (e ?= e')%Z; reflexivity.
Qed.

Lemma SFcompare_nan (x y : spec_float) :
  sf_is_nan x = true \/ sf_is_nan y = true -> SFcompare x y = None.
Proof.
  destruct x as [s|s| |s m e], y as [s'|s'| |s' m' e']; simpl;
    intros [H|H]; try discriminate; reflexivity.
Qed.

Ltac lex3_solve :=
  repeat match goal with
  | a : (Z * Z * Z)%type |- _ => destruct a as [[? ?] ?]
  end;
  unfold lex3 in *;
  repeat match goal with
  | H : context [(?a ?= ?b)%Z] |- _ => destruct (Z.compare_spec a b)
  | |- context [(?a ?= ?b)%Z] => destruct (Z.compare_spec a b)
  end;
  try congruence; try lia.

Lemma lex3_refl (a : Z * Z * Z) : lex3 a a = Eq.
Proof. lex3_solve. Qed.

Lemma lex3_antisym (a b : Z * Z * Z) : lex3 b a = CompOpp (lex3 a b).
Proof. lex3_solve; simpl; try congruence; try lia. Qed.

Lemma lex3_le_trans (a b c : Z * Z * Z) :
  lex3 a b <> Gt -> lex3 b c <> Gt -> lex3 a c <> Gt.
Proof. lex3_solve. Qed.

Lemma lex3_lt_le_trans (a b c : Z * Z * Z) :
  lex3 a b = Lt -> lex3 b c <> Gt -> lex3 a c = Lt.
Proof. lex3_solve. Qed.

Lemma lex3_le_lt_trans (a b c : Z * Z * Z) :
  lex3 a b <> Gt -> lex3 b c = Lt -> lex3 a c = Lt.
Proof. lex3_solve. Qed.

Lemma is_nan_spec (x : float) : is_nan x = sf_is_nan (Prim2SF x).
Proof.
  unfold is_nan. rewrite eqb_spec. unfold SFeqb.
  destruct (sf_is_nan (Prim2SF x)) eqn:E.
  - rewrite SFcompare_nan by auto. reflexivity.
  - rewrite SFcompare_rank, lex3_refl by exact E. reflexivity.
Qed.

(** The three comparisons, read on the number line. *)
Lemma leb_iff (x y : float) :
  (x <=? y) = true <->
  is_nan x = false /\ is_nan y = false /\ lex3 (rank x) (rank y) <> Gt.
Proof.
  rewrite leb_spec, !is_nan_spec. unfold SFleb, rank.
  destruct (sf_is_nan (Prim2SF x)) eqn:Ex.
  - rewrite SFcompare_nan by auto. split; [discriminate | intros (H & _); discriminate].
  - destruct (sf_is_nan (Prim2SF y)) eqn:Ey.
    + rewrite SFcompare_nan by auto.
      split; [discriminate | intros (_ & H & _); discriminate].
    + rewrite SFcompare_rank by assumption.
      destruct (lex3 (sf_rank (Prim2SF x)) (sf_rank (Prim2SF y)));
        split; try discriminate; try (intros (_ & _ & H); congruence);
        intros _; repeat split; discriminate.
Qed.

Lemma ltb_iff (x y : float) :
  (x <? y) = true <->
  is_nan x = false /\ is_nan y = false /\ lex3 (rank x) (rank y) = Lt.
Proof.
  rewrite ltb_spec, !is_nan_spec. unfold SFltb, rank.
  destruct (sf_is_nan (Prim2SF x)) eqn:Ex.
  - rewrite SFcompare_nan by auto. split; [discriminate | intros (H & _); discriminate].
  - destruct (sf_is_nan (Prim2SF y)) eqn:Ey.
    + rewrite SFcompare_nan by auto.
      split; [discriminate | intros (_ & H & _); discriminate].
    + rewrite SFcompare_rank by assumption.
      destruct (lex3 (sf_rank (Prim2SF x)) (sf_rank (Prim2SF y)));
        split; try discriminate; try (intros (_ & _ & H); congruence);
        intros _; repeat split; reflexivity.
Qed.

Lemma ltb_false_iff (x y : float) :
  (x <? y) = false <->
  is_nan x = true \/ is_nan y = true \/ lex3 (rank x) (rank y) <> Lt.
Proof.
  split.
  - intro H. destruct (is_nan x) eqn:Ex; [auto|].
    destruct (is_nan y) eqn:Ey; [auto|]. right. right. intro Hlt.
    assert (Ht : (x <? y) = true) by (apply ltb_iff; auto).
    congruence.
  - intro H. destruct (x <? y) eqn:E; [|reflexivity].
    apply ltb_iff in E. destruct E as (Ex & Ey & Hlt).
    destruct H as [H|[H|H]]; congruence.
Qed.

Lemma ltb_leb (x y : float) : (x <? y) = true -> (x <=? y) = true.
Proof.
  rewrite ltb_iff, leb_iff. intros (Hx & Hy & H).
  repeat split; try assumption. congruence.
Qed.

Lemma leb_refl (x : float) : is_nan x = false -> (x <=? x) = true.
Proof.
  intro H. apply leb_iff. repeat split; try assumption.
  rewrite lex3_refl. discriminate.
Qed.

Lemma not_ltb_leb (x y : float) :
  is_nan x = false -> is_nan y = false ->
  (x <? y) = false -> (y <=? x) = true.
Proof.
  intros Hx Hy H. apply ltb_false_iff in H.
  destruct H as [H|[H|H]]; try congruence.
  apply leb_iff. repeat split; try assumption.
  rewrite lex3_antisym. destruct (lex3 (rank x) (rank y)); simpl; congruence.
Qed.

Lemma leb_not_ltb (x y : float) : (x <=? y) = true -> (y <? x) = false.
Proof.
  rewrite leb_iff. intros (Hx & Hy & H). apply ltb_false_iff.
  right. right. rewrite lex3_antisym.
  destruct (lex3 (rank x) (rank y)); simpl; congruence.
Qed.

Lemma leb_trans (x y z : float) :
  (x <=? y) = true -> (y <=? z) = true -> (x <=? z) = true.
Proof.
  rewrite !leb_iff. intros (Hx & Hy & H1) (_ & Hz & H2).
  repeat split; try assumption. eapply lex3_le_trans; eassumption.
Qed.

Lemma ltb_leb_trans (x y z : float) :
  (x <? y) = true -> (y <=? z) = true -> (x <? z) = true.
Proof.
  rewrite !ltb_iff, leb_iff. intros (Hx & Hy & H1) (_ & Hz & H2).
  repeat split; try assumption. eapply lex3_lt_le_trans; eassumption.
Qed.

Lemma leb_ltb_trans (x y z : float) :
  (x <=? y) = true -> (y <? z) = true -> (x <? z) = true.
Proof.
  rewrite !ltb_iff, leb_iff. intros (Hx & Hy & H1) (_ & Hz & H2).
  repeat split; try assumption. eapply lex3_le_lt_trans; eassumption.
Qed.

Lemma leb_not_nan (x y : float) :
  (x <=? y) = true -> is_nan x = false /\ is_nan y = false.
Proof.
  rewrite leb_iff. intros (Hx & Hy & _). auto.
Qed.

Lemma ltb_not_nan (x y : float) :
  (x <? y) = true -> is_nan x = false /\ is_nan y = false.
Proof.
  rewrite ltb_iff. intros (Hx & Hy & _). auto.
Qed.

(** ** Binary64: [Math.min], [Math.max] and the clamp *)

Lemma Math_min_nan (a b : float) :
  is_nan a = true \/ is_nan b = true -> Math_min a b = nan.
Proof.
  intros [H|H]; unfold Math_min; rewrite H; [|rewrite orb_true_r];
    reflexivity.
Qed.

Lemma Math_max_nan (a b : float) :
  is_nan a = true \/ is_nan b = true -> Math_max a b = nan.
Proof.
  intros [H|H]; unfold Math_max; rewrite H; [|rewrite orb_true_r];
    reflexivity.
Qed.

(** The minimum of two numbers is one of them and is below both. *)
Lemma Math_min_spec (a b : float) :
  is_nan a = false -> is_nan b = false ->
  (Math_min a b = a \/ Math_min a b = b) /\
  (Math_min a b <=? a) = true /\ (Math_min a b <=? b) = true.
Proof.
  intros Ha Hb. unfold Math_min. rewrite Ha, Hb. simpl.
  destruct (a <? b) eqn:E1.
  - split; [auto|]. split; [now apply leb_refl | now apply ltb_leb].
  - destruct (b <? a) eqn:E2.
    + split; [auto|]. split; [now apply ltb_leb | now apply leb_refl].
    + pose proof (not_ltb_leb a b Ha Hb E1) as Hba.
      pose proof (not_ltb_leb b a Hb Ha E2) as Hab.
      destruct (is_neg_zero a); (split; [auto|]);
        split; try assumption; now apply leb_refl.
Qed.

(** The maximum of two numbers is one of them and is above both. *)
Lemma Math_max_spec (a b : float) :
  is_nan a = false -> is_nan b = false ->
  (Math_max a b = a \/ Math_max a b = b) /\
  (a <=? Math_max a b) = true /\ (b <=? Math_max a b) = true.
Proof.
  intros Ha Hb. unfold Math_max. rewrite Ha, Hb. simpl.
  destruct (a <? b) eqn:E1.
  - split; [auto|]. split; [now apply ltb_leb | now apply leb_refl].
  - destruct (b <? a) eqn:E2.
    + split; [auto|]. split; [now apply leb_refl | now apply ltb_leb].
    + pose proof (not_ltb_leb a b Ha Hb E1) as Hba.
      pose proof (not_ltb_leb b a Hb Ha E2) as Hab.
      destruct (is_neg_zero a); (split; [auto|]);
        split; try assumption; now apply leb_refl.
Qed.

Lemma is_nan_nan : is_nan nan = true.
Proof. reflexivity. Qed.

Lemma is_nan_zero : is_nan 0 = false.
Proof. reflexivity. Qed.

(** The clamp of a number is a number of the lane; the clamp of [NaN]
    is [NaN]. *)
Lemma clamp_spec (p : Params) (x : float) :
  (0 <=? poolLen p) = true ->
  (is_nan x = true -> clamp p x = nan) /\
  (is_nan x = false ->
   is_nan (clamp p x) = false /\
   (0 <=? clamp p x) = true /\ (clamp p x <=? poolLen p) = true).
Proof.
  intro HL. destruct (leb_not_nan _ _ HL) as [_ HLn]. unfold clamp. split.
  - intro Hx. rewrite (Math_min_nan (poolLen p) x) by auto.
    apply Math_max_nan. right. reflexivity.
  - intro Hx.
    destruct (Math_min_spec (poolLen p) x HLn Hx) as (Hm & HmL & Hmx).
    destruct (leb_not_nan _ _ HmL) as [Hmn _].
    destruct (Math_max_spec 0 (Math_min (poolLen p) x) is_nan_zero Hmn)
      as (Hr & H0r & Hmr).
    destruct (leb_not_nan _ _ H0r) as [_ Hrn].
    split; [exact Hrn|]. split; [exact H0r|].
    destruct Hr as [-> | ->]; assumption.
Qed.

End FloatOrder.

(** ** Binary64: the position function *)

Section FloatPosition.

Import Stdlib.Floats.Floats.
Import Binary64.
Local Open Scope float_scope.
#[local] Set Warnings "-inexact-float".

Variable p : Params.

(** [timeToMeters] in terms of its named locals. *)
Lemma timeToMeters_locals (t : float) :
  timeToMeters p t =
  if cycleT p =? 0 then 0 else clamp p (laneDistance p t).
Proof.
  reflexivity.
Qed.

(** The zero-cycle guard: a cycle time that compares equal to zero,
    [+0] or [-0], gives position [0]. *)
Lemma zero_cycle_guard (t : float) :
  (cycleT p =? 0) = true -> timeToMeters p t = 0.
Proof.
  intro H. rewrite timeToMeters_locals. now rewrite H.
Qed.

Lemma reversed_loop64 (n : float) : mode p = loop -> reversed p n = false.
Proof.
  intro Hm. unfold reversed. now rewrite Hm.
Qed.

Lemma reversed_pingpong64 (n : float) :
  mode p = pingpong -> reversed p n = (rem2 n =? 1).
Proof.
  intro Hm. unfold reversed. now rewrite Hm.
Qed.

(** The distance within the cycle depends on the time within the cycle
    only. *)
Lemma cycleDistance_same (t1 t2 : float) :
  timeInCycle p t1 = timeInCycle p t2 ->
  cycleDistance p t1 = cycleDistance p t2.
Proof.
  intro H. unfold cycleDistance. now rewrite H.
Qed.

Lemma zero_lt_not_neg_zero (x : float) :
  (0 <? x) = true -> is_neg_zero x = false.
Proof.
  intro H. apply ltb_iff in H. destruct H as (_ & _ & H).
  unfold is_neg_zero, rank in *.
  destruct (Prim2SF x) as [[|]| | |]; try reflexivity.
  simpl in H. discriminate.
Qed.

(** Clamping the two walls. *)
Lemma clamp_zero : (0 <=? poolLen p) = true -> clamp p 0 = 0.
Proof.
  intro HL. destruct (leb_not_nan _ _ HL) as [_ HLn].
  unfold clamp, Math_min. rewrite HLn. simpl.
  rewrite (leb_not_ltb _ _ HL).
  destruct (0 <? poolLen p) eqn:E; [reflexivity|].
  destruct (is_neg_zero (poolLen p)) eqn:Ez; [|reflexivity].
  unfold Math_max. rewrite HLn.
  rewrite E, (leb_not_ltb _ _ HL). reflexivity.
Qed.

Lemma clamp_poolLen : (0 <? poolLen p) = true -> clamp p (poolLen p) = poolLen p.
Proof.
  intro HL. destruct (ltb_not_nan _ _ HL) as [_ HLn].
  assert (Hirr : (poolLen p <? poolLen p) = false)
    by (apply leb_not_ltb; now apply leb_refl).
  unfold clamp, Math_min. rewrite HLn. simpl. rewrite Hirr.
  replace (if is_neg_zero (poolLen p) then poolLen p else poolLen p)
    with (poolLen p) by (now destruct (is_neg_zero (poolLen p))).
  unfold Math_max. rewrite HLn. simpl. now rewrite HL.
Qed.

(** A number of the lane other than zero is its own clamp; a zero is
    clamped to [+0]. *)
Lemma clamp_inside (x : float) :
  (0 <? poolLen p) = true -> (0 <=? x) = true -> (x <=? poolLen p) = true ->
  clamp p x = if 0 <? x then x else 0.
Proof.
  intros HL H0 HxL.
  destruct (ltb_not_nan _ _ HL) as [_ HLn].
  destruct (leb_not_nan _ _ H0) as [_ Hxn].
  assert (Hmin : Math_min (poolLen p) x = x).
  { unfold Math_min. rewrite HLn, Hxn. simpl.
    rewrite (leb_not_ltb _ _ HxL).
    destruct (x <? poolLen p); [reflexivity|].
    now rewrite (zero_lt_not_neg_zero _ HL). }
  unfold clamp. rewrite Hmin. unfold Math_max. rewrite Hxn. simpl.
  destruct (0 <? x); [reflexivity|].
  now rewrite (leb_not_ltb _ _ H0).
Qed.

(** The clamp keeps the order. *)
Lemma clamp_monotone (x1 x2 : float) :
  (0 <=? poolLen p) = true -> (x1 <=? x2) = true ->
  (clamp p x1 <=? clamp p x2) = true.
Proof.
  intros HL H12.
  destruct (leb_not_nan _ _ HL) as [_ HLn].
  destruct (leb_not_nan _ _ H12) as [H1n H2n].
  unfold clamp.
  destruct (Math_min_spec (poolLen p) x1 HLn H1n) as (_ & Hm1L & Hm1x).
  destruct (Math_min_spec (poolLen p) x2 HLn H2n) as (Hm2 & Hm2L & _).
  destruct (leb_not_nan _ _ Hm1L) as [Hm1n _].
  destruct (leb_not_nan _ _ Hm2L) as [Hm2n _].
  assert (Hm : (Math_min (poolLen p) x1 <=? Math_min (poolLen p) x2) = true).
  { destruct Hm2 as [-> | ->]; [exact Hm1L|].
    eapply leb_trans; eassumption. }
  destruct (Math_max_spec 0 _ is_nan_zero Hm1n) as (Hr1 & _ & _).
  destruct (Math_max_spec 0 _ is_nan_zero Hm2n) as (_ & H0r2 & Hmr2).
  destruct Hr1 as [-> | ->]; [exact H0r2|].
  eapply leb_trans; eassumption.
Qed.

End FloatPosition.

(** ** Binary64: what holds of the program *)

Section FloatClaims.

Import Stdlib.Floats.Floats.
Import Binary64.
Local Open Scope float_scope.
#[local] Set Warnings "-inexact-float".

(** [Math.floor], [n % 2], [Math.min] and [Math.max] on sample inputs,
    zeros, infinities and [NaN] among them. *)
Example binary64_operations :
  (Math_floor 2.5 = 2 /\ Math_floor (-2.5) = -3 /\ Math_floor 0.25 = 0 /\
   Math_floor (-0.25) = -1 /\ Math_floor (-0) = -0 /\ Math_floor 7 = 7 /\
   Math_floor 4503599627370495.5 = 4503599627370495 /\
   Math_floor 5.999999999999999 = 5 /\ Math_floor 1e300 = 1e300 /\
   Math_floor infinity = infinity /\ is_nan (Math_floor nan) = true) /\
  (rem2 0 = 0 /\ rem2 1 = 1 /\ rem2 2 = 0 /\ rem2 5 = 1 /\ rem2 (-3) = -1 /\
   rem2 (-4) = -0 /\ rem2 9007199254740991 = 1 /\ rem2 1e300 = 0 /\
   rem2 0.5 = 0.5 /\ is_nan (rem2 infinity) = true /\
   is_nan (rem2 nan) = true) /\
  (Math_min 50 49.5 = 49.5 /\ Math_min 50 51 = 50 /\ Math_min 0 (-0) = -0 /\
   Math_min (-0) 0 = -0 /\ Math_min 50 infinity = 50 /\
   Math_min 50 neg_infinity = neg_infinity /\ is_nan (Math_min 50 nan) = true) /\
  (Math_max 0 49.5 = 49.5 /\ Math_max 0 (-1) = 0 /\ Math_max 0 (-0) = 0 /\
   Math_max (-0) 0 = 0 /\ Math_max 0 neg_infinity = 0 /\
   is_nan (Math_max 0 nan) = true).
Proof.
  repeat split; vm_compute; reflexivity.
Qed.

(** The model on sample inputs, among them inputs at which rounding
    shows. *)
Example binary64_samples :
  timeToMeters (lane50 loop 50 0) 25 = 25 /\
  timeToMeters (lane50 loop 50 0) 49.999 = 49.999 /\
  timeToMeters (lane50 pingpong 50 0) 75 = 25 /\
  timeToMeters (lane50 pingpong 50 1) 52.5 = 50 /\
  timeToMeters (lane50 pingpong 50 1) 103.5 = 0 /\
  cycleT (lane50 loop 28 1) = 30.000000000000004 /\
  timeToMeters (lane50 loop 28 1) 30 = 50 /\
  timeToMeters (lane50 loop 28 0) 28 = 49.99999999999999 /\
  timeToMeters (lane25 loop 29 0) 13.999999999999998 = 24.137931034482758 /\
  timeToMeters (lane25 loop 29 0) 14.499999999999998 = 0.
Proof.
  repeat split; vm_compute; reflexivity.
Qed.







End FloatClaims.

Section FloatClaimsPingPong.

Import Stdlib.Floats.Floats.
Import Binary64.
Local Open Scope float_scope.
#[local] Set Warnings "-inexact-float".

(** A number that is neither below nor above zero is one of the two
    zeros. *)
Lemma zero_spec (x : float) :
  (0 <=? x) = true -> (0 <? x) = false ->
  exists s : bool, Prim2SF x = S754_zero s.
Proof.
  intros H0 Hlt. apply leb_iff in H0. destruct H0 as (_ & Hxn & Hle).
  apply ltb_false_iff in Hlt.
  destruct Hlt as [Hlt|[Hlt|Hlt]]; try congruence; try discriminate.
  rewrite is_nan_spec in Hxn. unfold rank in *.
  change (Prim2SF 0) with (S754_zero false) in *.
  destruct (Prim2SF x) as [s|[|]| |[|] m e]; simpl in *;
    try discriminate; try congruence.
  now exists s.
Qed.

(** Subtracting either zero from a positive number leaves it as it is. *)
Lemma sub_zero (a x : float) :
  (0 <? a) = true -> (0 <=? x) = true -> (0 <? x) = false ->
  a - x = a - 0.
Proof.
  intros Ha H0 Hlt. destruct (zero_spec x H0 Hlt) as [s Hs].
  apply ltb_iff in Ha. destruct Ha as (_ & Han & Hpos).
  rewrite is_nan_spec in Han. unfold rank in Hpos.
  change (Prim2SF 0) with (S754_zero false) in Hpos.
  apply Prim2SF_inj. rewrite !sub_spec, Hs.
  change (Prim2SF 0) with (S754_zero false).
  destruct (Prim2SF a) as [sa|[|]| |[|] m e]; simpl in *;
    try discriminate; reflexivity.
Qed.




(** C4, amended: on a lap that the program does not reverse (loop mode,
    or a lap index for which [n % 2 === 1] fails), with a positive pool
    length and a cycle time that is not zero, the position is [0] while
    the time within the cycle that the program computes is below the
    dwell, and it is [poolLen] while that time is not below the dwell
    and is above [travelT + turnDwell]. *)
Theorem dwell_holds_on_computed_lap (p : Params) (t : float) :
  (0 <? poolLen p) = true ->
  (cycleT p =? 0) = false ->
  mode p = loop \/ (rem2 (cycleIndex p t) =? 1) = false ->
  ((timeInCycle p t <? turnDwell p) = true -> timeToMeters p t = 0) /\
  ((timeInCycle p t <? turnDwell p) = false ->
   (travelT p + turnDwell p <? timeInCycle p t) = true ->
   timeToMeters p t = poolLen p).
Proof.
  intros HL Hc Hfwd.
  assert (Hrev : reversed p (cycleIndex p t) = false).
  { destruct Hfwd as [Hm|Hn].
    - now apply reversed_loop64.
    - unfold reversed. rewrite Hn. apply andb_false_r. }
  rewrite timeToMeters_locals, Hc. unfold laneDistance. rewrite Hrev.
  unfold cycleDistance. split.
  - intros ->. apply clamp_zero. now apply ltb_leb.
  - intros -> ->. now apply clamp_poolLen.
Qed.

Lemma dwell_holds_on_computed_lap_witness :
  (0 <? poolLen (lane50 loop 28 1)) = true /\
  (cycleT (lane50 loop 28 1) =? 0) = false /\
  (mode (lane50 loop 28 1) = loop \/
   (rem2 (cycleIndex (lane50 loop 28 1) 30) =? 1) = false) /\
  (timeInCycle (lane50 loop 28 1) 30 <? turnDwell (lane50 loop 28 1)) = false /\
  (travelT (lane50 loop 28 1) + turnDwell (lane50 loop 28 1)
     <? timeInCycle (lane50 loop 28 1) 30) = true /\
  timeToMeters (lane50 loop 28 1) 30 = poolLen (lane50 loop 28 1).
Proof.
  assert (HL : (0 <? poolLen (lane50 loop 28 1)) = true)
    by (vm_compute; reflexivity).
  assert (Hc : (cycleT (lane50 loop 28 1) =? 0) = false)
    by (vm_compute; reflexivity).
  assert (Hfwd : mode (lane50 loop 28 1) = loop \/
                 (rem2 (cycleIndex (lane50 loop 28 1) 30) =? 1) = false)
    by (left; reflexivity).
  assert (H1 : (timeInCycle (lane50 loop 28 1) 30
                <? turnDwell (lane50 loop 28 1)) = false)
    by (vm_compute; reflexivity).
  assert (H2 : (travelT (lane50 loop 28 1) + turnDwell (lane50 loop 28 1)
                <? timeInCycle (lane50 loop 28 1) 30) = true)
    by (vm_compute; reflexivity).
  exact (conj HL (conj Hc (conj Hfwd (conj H1 (conj H2
    (proj2 (dwell_holds_on_computed_lap (lane50 loop 28 1) 30 HL Hc Hfwd)
       H1 H2)))))).
Defined.




End FloatClaimsPingPong.
